(** * example_relativistic_ppo.py: the generation / scoring / update loop

    A shallow embedding of the script's own control flow: the batch
    collator, the per-batch closure [get_rewards], and the loop that
    drives generation, scoring, the update step and logging.  The
    libraries the script calls (generation, the tokenizer, the sentiment
    pipeline, the update step, the metrics sink) are collaborators; they
    appear as the fields of a record and the script is modelled on top
    of them. *)

From Stdlib Require Import ZArith QArith.
From stdpp Require Import gmap strings list fin_maps.

Local Open Scope Z_scope.

(** ** Python values and exceptions *)

(** A 1-D tensor of token ids ([response.squeeze()], an [input_ids] row). *)
Definition tensor := list Z.

(** The values the script stores in dictionaries.  Floats are only
    passed around by the script, never computed with; they are carried
    as rationals. *)
Inductive pyval :=
| PNone
| PBool (b : bool)
| PInt (n : Z)
| PFloat (q : Q)
| PStr (s : string)
| PTensor (t : tensor).

(** The exceptions the modelled code can raise or let through. *)
Inductive exn :=
| IndexError
| KeyError (key : string)
| TypeError
| ValueError
| RuntimeError (msg : string).

Inductive result (A : Type) :=
| Ok (a : A)
| Err (e : exn).
Arguments Ok {A} a.
Arguments Err {A} e.

Definition rbind {A B} (r : result A) (f : A → result B) : result B :=
  match r with
  | Ok a => f a
  | Err e => Err e
  end.

(** A list comprehension whose element expression may raise: elements
    are evaluated left to right and the first exception ends it. *)
Fixpoint comprehension {A B} (f : A → result B) (l : list A) : result (list B) :=
  match l with
  | [] => Ok []
  | x :: l' =>
      rbind (f x) (λ y, rbind (comprehension f l') (λ ys, Ok (y :: ys)))
  end.

(** [d[key]] on a dict. *)
Definition getitem {V} (key : string) (d : gmap string V) : result V :=
  match d !! key with
  | Some v => Ok v
  | None => Err (KeyError key)
  end.

(** ** The collator (source lines 62-63)

    [dict((key, [d[key] for d in data]) for key in data[0])].
    [data[0]] raises IndexError on an empty list; [d[key]] raises
    KeyError when a later record lacks a key of the first one.  Keys are
    visited in the map's enumeration order. *)
Definition collator {V} (data : list (gmap string V))
  : result (gmap string (list V)) :=
  match data with
  | [] => Err IndexError
  | d0 :: _ =>
      rbind
        (comprehension
           (λ key, rbind (comprehension (getitem key) data)
                         (λ col, Ok (key, col)))
           (map fst (map_to_list d0)))
        (λ items, Ok (list_to_map items))
  end.

(** ** Collaborators

    What the script imports and calls.  [ppo_trainer] is stateful (the
    policy weights and its sampling state): its calls thread a state of
    type [Trainer].  Each call may raise. *)

(** One [{label, score}] dictionary of a classifier output. *)
Record entry := { label : string; score : Q }.

Record Collaborators := {
  Trainer : Type;
  Stats : Type;
  (** [ppo_trainer.generate(query, **generation_kwargs)], squeezed. *)
  ppo_generate :
    Trainer → tensor → gmap string pyval → result tensor * Trainer;
  (** [tokenizer.decode] and [tokenizer.eos_token_id]. *)
  tokenizer_decode : tensor → string;
  eos_token_id : Z;
  (** The text classifier behind [sentiment_pipe]: the list of
      [{label, score}] entries it returns for one text. *)
  classifier : gmap string pyval → string → result (list entry);
  (** [ppo_trainer.step(queries, responses, responses_ref, rewards,
      rewards_ref)]. *)
  ppo_step :
    Trainer → list pyval → list tensor → list tensor → list Q → list Q →
    result Stats * Trainer;
  (** [ppo_trainer.log_stats(stats, batch, rewards)]. *)
  ppo_log_stats :
    Trainer → Stats → gmap string (list pyval) → list Q →
    result unit * Trainer;
}.

(** ** The length sampler *)

(** NumPy's global generator as the script sees it: a stream of raw
    draws and the position of the next one. *)
Record Rng := { entropy : nat → nat; cursor : nat }.

Definition advance (r : Rng) : Rng :=
  {| entropy := entropy r; cursor := S (cursor r) |}.

Record LengthSampler := { values : list Z }.

(** Modelled from the spec: [trl.core.LengthSampler] is not part of the
    script.  The spec describes it as a component drawing a random
    integer from a fixed range, inclusive of the lower and exclusive of
    the upper bound, a fresh draw per call. *)
Definition LengthSampler_init (min_value max_value : Z) : LengthSampler :=
  {| values := seqZ min_value (max_value - min_value) |}.

(** The value the sampler returns when the generator is at [r]. *)
Definition choice (ls : LengthSampler) (r : Rng) : option Z :=
  values ls !! (entropy r (cursor r) mod length (values ls))%nat.

(** The value of the [i]-th call from now on. *)
Definition choice_at (ls : LengthSampler) (r : Rng) (i : nat) : option Z :=
  choice ls {| entropy := entropy r; cursor := (cursor r + i)%nat |}.

(** ** Slicing *)

(** [l[start:]] with Python's rule for a negative or too large start. *)
Definition slice_from {A} (start : Z) (l : list A) : list A :=
  let n := Z.of_nat (length l) in
  let s := if start <? 0 then Z.max 0 (start + n) else Z.min start n in
  drop (Z.to_nat s) l.

(** ** The world the loop runs in *)

Section Loop.
Context (C : Collaborators).

(** Calls that leave the script, in program order. *)
Inductive Event :=
| EvGenerate (query : tensor) (kwargs : gmap string pyval)
| EvPipe (texts : list string) (kwargs : gmap string pyval)
| EvStep (queries : list pyval) (responses responses_ref : list tensor)
         (rewards rewards_ref : list Q)
| EvLog (stats : Stats C) (batch : gmap string (list pyval))
        (rewards : list Q).

(** The mutable objects of the script: the trainer, NumPy's generator,
    the module-level dict [generation_kwargs], and the dict bound to
    the loop variable [batch]; [trace] records the outgoing calls. *)
Record World := {
  trainer : Trainer C;
  np_random : Rng;
  generation_kwargs : gmap string pyval;
  batch : gmap string (list pyval);
  trace : list Event;
}.

Definition set_trainer (t : Trainer C) (w : World) : World :=
  {| trainer := t; np_random := np_random w;
     generation_kwargs := generation_kwargs w;
     batch := batch w; trace := trace w |}.
Definition set_np_random (r : Rng) (w : World) : World :=
  {| trainer := trainer w; np_random := r;
     generation_kwargs := generation_kwargs w;
     batch := batch w; trace := trace w |}.
Definition set_generation_kwargs (kw : gmap string pyval) (w : World) : World :=
  {| trainer := trainer w; np_random := np_random w;
     generation_kwargs := kw;
     batch := batch w; trace := trace w |}.
Definition set_batch (b : gmap string (list pyval)) (w : World) : World :=
  {| trainer := trainer w; np_random := np_random w;
     generation_kwargs := generation_kwargs w;
     batch := b; trace := trace w |}.
Definition emit (ev : Event) (w : World) : World :=
  {| trainer := trainer w; np_random := np_random w;
     generation_kwargs := generation_kwargs w;
     batch := batch w; trace := trace w ++ [ev] |}.

(** Computations that read and write the world and may raise.  The
    world at the point of the raise is kept. *)
Definition M (A : Type) : Type := World → result A * World.

Definition ret {A} (a : A) : M A := λ w, (Ok a, w).
Definition raise {A} (e : exn) : M A := λ w, (Err e, w).
Definition bind {A B} (c : M A) (k : A → M B) : M B :=
  λ w, match c w with
       | (Ok a, w') => k a w'
       | (Err e, w') => (Err e, w')
       end.
Definition lift {A} (r : result A) : M A := λ w, (r, w).

Notation "x <- c ;; k" := (bind c (λ x, k))
  (at level 100, c at next level, right associativity).
Notation "c ;;; k" := (bind c (λ _, k))
  (at level 100, right associativity).

(** *** Module-level constants (source lines 20, 85-96) *)

Definition sent_kwargs : gmap string pyval :=
  {[ "top_k" := PNone; "function_to_apply" := PStr "none";
     "batch_size" := PInt 16 ]}.

Definition output_min_length : Z := 4.
Definition output_max_length : Z := 16.
Definition output_length_sampler : LengthSampler :=
  LengthSampler_init output_min_length output_max_length.

Definition initial_generation_kwargs : gmap string pyval :=
  {[ "min_length" := PInt (-1); "top_k" := PFloat 0; "top_p" := PFloat 1;
     "do_sample" := PBool true; "pad_token_id" := PInt (eos_token_id C) ]}.

(** *** Calls of the collaborators *)

(** [output_length_sampler()]: [np.random.choice] over the sampler's
    values; an empty range raises ValueError. *)
Definition call_sampler (ls : LengthSampler) : M Z := λ w,
  match choice ls (np_random w) with
  | Some v => (Ok v, set_np_random (advance (np_random w)) w)
  | None => (Err ValueError, w)
  end.

Definition as_tensor (v : pyval) : result tensor :=
  match v with
  | PTensor t => Ok t
  | _ => Err TypeError
  end.

(** [ppo_trainer.generate(query, **generation_kwargs)]: the current
    contents of the dict are passed. *)
Definition generate (query : pyval) : M tensor := λ w,
  match as_tensor query with
  | Err e => (Err e, w)
  | Ok q =>
      let w1 := emit (EvGenerate q (generation_kwargs w)) w in
      let '(r, t') := ppo_generate C (trainer w1) q (generation_kwargs w1) in
      (r, set_trainer t' w1)
  end.

(** [sentiment_pipe(texts, **kwargs)]: one call for the whole list; as
    the spec describes the reward-scoring capability, it returns one
    list of entries per input text, in order. *)
Definition sentiment_pipe (texts : list string) (kwargs : gmap string pyval)
  : M (list (list entry)) := λ w,
  (comprehension (classifier C kwargs) texts, emit (EvPipe texts kwargs) w).

Definition step (queries : list pyval) (responses responses_ref : list tensor)
    (rewards rewards_ref : list Q) : M (Stats C) := λ w,
  let w1 := emit (EvStep queries responses responses_ref rewards rewards_ref) w in
  let '(r, t') := ppo_step C (trainer w1) queries responses responses_ref
                           rewards rewards_ref in
  (r, set_trainer t' w1).

(** [ppo_trainer.log_stats(stats, batch, rewards)]: the sink sees the
    batch dict as it is at the time of the call. *)
Definition log_stats (stats : Stats C) (rewards : list Q) : M unit := λ w,
  let w1 := emit (EvLog stats (batch w) rewards) w in
  let '(r, t') := ppo_log_stats C (trainer w1) stats (batch w1) rewards in
  (r, set_trainer t' w1).

(** *** Statements on the dictionaries *)

Definition batch_getitem (key : string) : M (list pyval) := λ w,
  (getitem key (batch w), w).
Definition batch_setitem (key : string) (v : list pyval) : M unit := λ w,
  (Ok tt, set_batch (<[key := v]> (batch w)) w).
Definition generation_kwargs_setitem (key : string) (v : pyval) : M unit := λ w,
  (Ok tt, set_generation_kwargs (<[key := v]> (generation_kwargs w)) w).

(** [q + r] where both are expected to be [str]. *)
Definition add_text (qr : pyval * pyval) : result string :=
  match qr with
  | (PStr q, PStr r) => Ok (q +:+ r)
  | _ => Err TypeError
  end.

(** [output[1]["score"]] (wrapped in [torch.tensor]). *)
Definition reward_of (output : list entry) : result Q :=
  match output !! 1%nat with
  | Some e => Ok (score e)
  | None => Err IndexError
  end.

(** *** [get_rewards] (source lines 102-116) *)

(** The [for query in query_tensors] loop; [response_tensors] is the
    list appended to. *)
Fixpoint generate_responses (query_tensors : list pyval)
    (response_tensors : list tensor) : M (list tensor) :=
  match query_tensors with
  | [] => ret response_tensors
  | query :: rest =>
      gen_len <- call_sampler output_length_sampler ;;
      generation_kwargs_setitem "max_new_tokens" (PInt gen_len) ;;;
      response <- generate query ;;
      generate_responses rest
        (response_tensors ++ [slice_from (- gen_len) response])
  end.

Definition get_rewards (query_tensors : list pyval) (ref_model : bool)
  : M (list tensor * list Q) :=
  response_tensors <- generate_responses query_tensors [] ;;
  batch_setitem "response"
    ((λ r, PStr (tokenizer_decode C r)) <$> response_tensors) ;;;
  queries <- batch_getitem "query" ;;
  responses <- batch_getitem "response" ;;
  texts <- lift (comprehension add_text (zip queries responses)) ;;
  pipe_outputs <- sentiment_pipe texts sent_kwargs ;;
  rewards <- lift (comprehension reward_of pipe_outputs) ;;
  ret (response_tensors, rewards).

(** *** The loop (source lines 99-124) *)

Definition loop_body : M unit :=
  query_tensors <- batch_getitem "input_ids" ;;
  policy <- get_rewards query_tensors false ;;
  reference <- get_rewards query_tensors true ;;
  let '(response_tensors, rewards) := policy in
  let '(response_tensors_ref, rewards_ref) := reference in
  stats <- step query_tensors response_tensors response_tensors_ref
                rewards rewards_ref ;;
  log_stats stats rewards.

(** Iterating the dataloader: each batch is collated when it is
    fetched, bound to [batch], and the body runs on it.  [enumerate]
    and [tqdm] only number and display the batches; [epoch] is not
    read. *)
Definition iteration (chunk : list (gmap string pyval)) : M unit :=
  b <- lift (collator chunk) ;;
  (λ w, (Ok tt, set_batch b w)) ;;;
  loop_body.

Fixpoint training_loop (chunks : list (list (gmap string pyval))) : M unit :=
  match chunks with
  | [] => ret tt
  | chunk :: rest => iteration chunk ;;; training_loop rest
  end.

End Loop.

Arguments EvGenerate {C} query kwargs.
Arguments EvPipe {C} texts kwargs.
Arguments EvStep {C} queries responses responses_ref rewards rewards_ref.
Arguments EvLog {C} stats batch rewards.
Arguments trainer {C} w.
Arguments np_random {C} w.
Arguments generation_kwargs {C} w.
Arguments batch {C} w.
Arguments trace {C} w.
Arguments ret {C A} a w.
Arguments bind {C A B} c k w.

(** ** The dataloader *)

(** Successive groups of at most [n] items. *)
Fixpoint chunks {A} (fuel n : nat) (l : list A) : list (list A) :=
  match fuel, l with
  | S fuel', _ :: _ => take n l :: chunks fuel' n (drop n l)
  | _, _ => []
  end.

(** Modelled from the spec: [ppo_trainer.dataloader] is built inside the
    trainer, not in the script.  The spec describes an ordered sequence
    of records grouped by the collation function into batches of a
    fixed size, except possibly a final partial batch. *)
Definition dataloader {A} (batch_size : positive) (dataset : list A)
  : list (list A) :=
  chunks (length dataset) (Pos.to_nat batch_size) dataset.

(** The script from line 99 on, started in a world [w]. *)
Definition run_training (C : Collaborators) (batch_size : positive)
    (dataset : list (gmap string pyval)) : M C unit :=
  training_loop C (dataloader batch_size dataset).

(** The world when the loop starts. *)
Definition initial_world (C : Collaborators) (t : Trainer C) (r : Rng) : World C :=
  {| trainer := t; np_random := r;
     generation_kwargs := initial_generation_kwargs C;
     batch := ∅; trace := [] |}.

(** The key under which the sampled length is injected. *)
Definition gen_key : string := "max_new_tokens".

(** The value stored under ["response"]. *)
Definition decoded (C : Collaborators) (response_tensors : list tensor)
  : list pyval :=
  (λ r, PStr (tokenizer_decode C r)) <$> response_tensors.

(** ** Generation with a sampled length *)

(** Modelled from the spec: [PPOTrainer.generate] is not part of the
    script.  The spec describes generation, with the sampled length
    injected as [max_new_tokens], as producing a response token sequence
    of exactly that length; the sequence returned (the prompt, where it
    is echoed, followed by the new tokens) then holds at least that many
    tokens. *)
Definition generation_contract (C : Collaborators) : Prop :=
  ∀ tr q kwargs n out tr',
    kwargs !! "max_new_tokens" = Some (PInt n) →
    ppo_generate C tr q kwargs = (Ok out, tr') →
    n ≤ Z.of_nat (length out).

(** ** Rewards *)

(** The reward the script assigns to one scored text. *)
Definition score_text (C : Collaborators) (text : string) : result Q :=
  rbind (classifier C sent_kwargs text) reward_of.

(** The label of the positive class of the sentiment classifier. *)
Definition positive_label : string := "POSITIVE".

(** The selection the spec words describe: the score of the entry whose
    label is the positive one. *)
Definition positive_score (output : list entry) : option Q :=
  score <$> List.find (λ e, String.eqb (label e) positive_label) output.

(** The reading of C2 on one call of [get_rewards]: every reward is the
    label-matched positive score of the classifier's output for the
    text scored at that position. *)
Definition rewards_are_positive_scores (C : Collaborators)
    (query_tensors : list pyval) (w : World C) : Prop :=
  ∀ rts rws w', get_rewards C query_tensors false w = (Ok (rts, rws), w') →
    ∀ i r, rws !! i = Some r →
      ∃ queries q response output,
        batch w !! "query" = Some queries ∧
        queries !! i = Some (PStr q) ∧ rts !! i = Some response ∧
        classifier C sent_kwargs (q +:+ tokenizer_decode C response)
          = Ok output ∧
        positive_score output = Some r.

(** The events of the update step and of the logging sink. *)
Definition is_update {C : Collaborators} (ev : Event C) : bool :=
  match ev with
  | EvStep _ _ _ _ _ | EvLog _ _ _ => true
  | _ => false
  end.

(** ** Raises

    The places where a collaborator can raise during one iteration. *)

(** A raise inside one call of [get_rewards]: generation raises for
    some query after the queries before it went through, or the scoring
    call raises after all responses were generated. *)
Inductive get_rewards_raises (C : Collaborators) (qts : list pyval)
    (w : World C) (e : exn) (w' : World C) : Prop :=
| generation_raises pre query post rts1 w1 gen_len w2 :
    qts = pre ++ query :: post →
    generate_responses C pre [] w = (Ok rts1, w1) →
    call_sampler C output_length_sampler w1 = (Ok gen_len, w2) →
    generate C query
      (set_generation_kwargs C
         (<[gen_key := PInt gen_len]> (generation_kwargs w2)) w2)
      = (Err e, w') →
    get_rewards_raises C qts w e w'
| scoring_raises rts w1 queries texts :
    generate_responses C qts [] w = (Ok rts, w1) →
    batch w1 !! "query" = Some queries →
    comprehension add_text (zip queries (decoded C rts)) = Ok texts →
    comprehension (classifier C sent_kwargs) texts = Err e →
    w' = emit C (EvPipe texts sent_kwargs)
           (set_batch C (<["response" := decoded C rts]> (batch w1)) w1) →
    get_rewards_raises C qts w e w'.

(** A raise inside the loop body: in the policy pass, in the pass
    labelled reference, or in the update step. *)
Inductive body_raises (C : Collaborators) (w : World C) (e : exn)
    (w' : World C) : Prop :=
| policy_pass_raises qts :
    batch w !! "input_ids" = Some qts →
    get_rewards_raises C qts w e w' →
    body_raises C w e w'
| reference_pass_raises qts policy w1 :
    batch w !! "input_ids" = Some qts →
    get_rewards C qts false w = (Ok policy, w1) →
    get_rewards_raises C qts w1 e w' →
    body_raises C w e w'
| update_raises qts rts rws w1 rts_ref rws_ref w2 :
    batch w !! "input_ids" = Some qts →
    get_rewards C qts false w = (Ok (rts, rws), w1) →
    get_rewards C qts true w1 = (Ok (rts_ref, rws_ref), w2) →
    step C qts rts rts_ref rws rws_ref w2 = (Err e, w') →
    body_raises C w e w'.

(** No collaborator raises (generation, when it is given
    [max_new_tokens]), and the classifier returns at least two entries
    for every text (one per class). *)
Definition collaborators_succeed (C : Collaborators) : Prop :=
  (∀ tr q kwargs n, kwargs !! "max_new_tokens" = Some (PInt n) →
     ∃ out tr', ppo_generate C tr q kwargs = (Ok out, tr')) ∧
  (∀ text, ∃ e0 e1 rest,
     classifier C sent_kwargs text = Ok (e0 :: e1 :: rest)) ∧
  (∀ tr qts rts rts_ref rws rws_ref, ∃ stats tr',
     ppo_step C tr qts rts rts_ref rws rws_ref = (Ok stats, tr')) ∧
  (∀ tr stats b rws, ∃ tr', ppo_log_stats C tr stats b rws = (Ok tt, tr')).

(** ** Counting the outgoing calls *)

Definition is_generate {C : Collaborators} (ev : Event C) : bool :=
  match ev with EvGenerate _ _ => true | _ => false end.
Definition is_pipe {C : Collaborators} (ev : Event C) : bool :=
  match ev with EvPipe _ _ => true | _ => false end.
Definition is_step {C : Collaborators} (ev : Event C) : bool :=
  match ev with EvStep _ _ _ _ _ => true | _ => false end.
Definition is_log {C : Collaborators} (ev : Event C) : bool :=
  match ev with EvLog _ _ _ => true | _ => false end.

(** How many of the calls [evs] are of the kind [p]. *)
Definition calls {C : Collaborators} (p : Event C → bool)
    (evs : list (Event C)) : nat :=
  length (List.filter p evs).

(** How [generation_kwargs] may differ between two points of the run:
    not at all, or in the entry ["max_new_tokens"], set to a length of
    the output range. *)
Definition only_length_set (kw kw' : gmap string pyval) : Prop :=
  kw' = kw ∨
  ∃ L, output_min_length ≤ L < output_max_length ∧
       kw' = <[gen_key := PInt L]> kw.

(** ** A small instance of the collaborators, for concrete runs *)

Module Toy.

Definition token_word (z : Z) : string :=
  if z =? 7 then " good" else " film".

Definition decode (t : tensor) : string :=
  foldr (λ z s, token_word z +:+ s) "" t.

(** Echoes the prompt and appends [max_new_tokens] copies of token 7. *)
Definition generate_echo (t : nat) (q : tensor) (kw : gmap string pyval)
  : result tensor * nat :=
  match kw !! "max_new_tokens" with
  | Some (PInt n) => (Ok (q ++ replicate (Z.to_nat n) 7), t)
  | _ => (Err (RuntimeError "max_new_tokens"), t)
  end.

(** A classifier that finds every text positive: its output is ranked
    by score, best first. *)
Definition classify_ranked (kw : gmap string pyval) (text : string)
  : result (list entry) :=
  Ok [ {| label := "POSITIVE"; score := 9 # 10 |};
       {| label := "NEGATIVE"; score := 1 # 10 |} ].

Definition caps : Collaborators :=
  {| Trainer := nat;
     Stats := list (string * Q);
     ppo_generate := generate_echo;
     tokenizer_decode := decode;
     eos_token_id := 50256;
     classifier := classify_ranked;
     ppo_step := λ t _ _ _ _ _, (Ok [("ppo/loss", 1 # 2)], S t);
     ppo_log_stats := λ t _ _ _, (Ok tt, t) |}.

Definition rng : Rng := {| entropy := λ i, (5 * i + 1)%nat; cursor := 0 |}.

Definition record1 : gmap string pyval :=
  {[ "input_ids" := PTensor [40; 6151]; "query" := PStr "I loved" ]}.
Definition record2 : gmap string pyval :=
  {[ "input_ids" := PTensor [1212; 373]; "query" := PStr "This was" ]}.

Definition w0 : World caps := initial_world caps 0%nat rng.

(** The same collaborators, with an update step that goes through once
    and raises from the second call on. *)
Definition caps_diverging : Collaborators :=
  {| Trainer := nat;
     Stats := list (string * Q);
     ppo_generate := generate_echo;
     tokenizer_decode := decode;
     eos_token_id := 50256;
     classifier := classify_ranked;
     ppo_step := λ t _ _ _ _ _,
       match t with
       | O => (Ok [("ppo/loss", 1 # 2)], S t)
       | S _ => (Err (RuntimeError "nan loss"), t)
       end;
     ppo_log_stats := λ t _ _ _, (Ok tt, t) |}.

Definition w0_diverging : World caps_diverging :=
  initial_world caps_diverging 0%nat rng.

(** The batch of the two records, as the collator builds it, and the
    world in which the loop body meets it. *)
Definition queries2 : list pyval := [PTensor [40; 6151]; PTensor [1212; 373]].
Definition batch2 : gmap string (list pyval) :=
  {[ "input_ids" := queries2; "query" := [PStr "I loved"; PStr "This was"] ]}.
Definition w2 : World caps := set_batch caps batch2 w0.

End Toy.

(** ** Further sample data *)

Module Samples.

(** A record without [input_ids]. *)
Definition record_no_ids : gmap string pyval :=
  {[ "query" := PStr "This was" ]}.

(** Generation that stops at once: the prompt followed by the
    end-of-sequence token. *)
Definition generate_eos (t : nat) (q : tensor) (kw : gmap string pyval)
  : result tensor * nat :=
  (Ok (q ++ [50256]), t).

Definition caps_short : Collaborators :=
  {| Trainer := nat;
     Stats := list (string * Q);
     ppo_generate := generate_eos;
     tokenizer_decode := Toy.decode;
     eos_token_id := 50256;
     classifier := Toy.classify_ranked;
     ppo_step := λ t _ _ _ _ _, (Ok [("ppo/loss", 1 # 2)], S t);
     ppo_log_stats := λ t _ _ _, (Ok tt, t) |}.

Definition w2_short : World caps_short :=
  set_batch caps_short Toy.batch2 (initial_world caps_short 0%nat Toy.rng).

(** A classifier that returns its best label only. *)
Definition classify_top1 (kw : gmap string pyval) (text : string)
  : result (list entry) :=
  Ok [ {| label := "POSITIVE"; score := 9 # 10 |} ].

Definition caps_top1 : Collaborators :=
  {| Trainer := nat;
     Stats := list (string * Q);
     ppo_generate := Toy.generate_echo;
     tokenizer_decode := Toy.decode;
     eos_token_id := 50256;
     classifier := classify_top1;
     ppo_step := λ t _ _ _ _ _, (Ok [("ppo/loss", 1 # 2)], S t);
     ppo_log_stats := λ t _ _ _, (Ok tt, t) |}.

Definition w2_top1 : World caps_top1 :=
  set_batch caps_top1 Toy.batch2 (initial_world caps_top1 0%nat Toy.rng).

(** Batches that a collator would not build: no query texts, and fewer
    query texts than query tensors. *)
Definition w_no_query : World Toy.caps :=
  set_batch Toy.caps {[ "input_ids" := Toy.queries2 ]} Toy.w0.

Definition w_one_query : World Toy.caps :=
  set_batch Toy.caps
    {[ "input_ids" := Toy.queries2; "query" := [PStr "I loved"] ]} Toy.w0.

Definition w_no_ids : World Toy.caps :=
  set_batch Toy.caps {[ "query" := [PStr "I loved"] ]} Toy.w0.

End Samples.

(** ** Tokenising a row (source lines 46-51) *)

(** The tokenizer that [build_dataset] loads for itself: [encode] may
    raise, [decode] turns token ids into text. *)
Record Tokenizer := {
  tok_encode : pyval → result tensor;
  tok_decode : tensor → string;
}.

(** [l[:stop]] with Python's rule for a negative or too large stop. *)
Definition slice_to {A} (stop : Z) (l : list A) : list A :=
  let n := Z.of_nat (length l) in
  let s := if stop <? 0 then Z.max 0 (stop + n) else Z.min stop n in
  take (Z.to_nat s) l.

(** [input_size()]: a draw from NumPy's generator, as in
    [call_sampler], outside the world of the loop. *)
Definition call_input_size (input_size : LengthSampler) (r : Rng)
  : result Z * Rng :=
  match choice input_size r with
  | Some v => (Ok v, advance r)
  | None => (Err ValueError, r)
  end.

(** [tokenize(sample)]: the review is encoded first, then the length
    is drawn, then the slice is stored under ["input_ids"], read back
    and decoded into ["query"]; the row is returned. *)
Definition tokenize (tok : Tokenizer) (input_size : LengthSampler)
    (sample : gmap string pyval) (r : Rng)
  : result (gmap string pyval) * Rng :=
  match rbind (getitem "review" sample) (tok_encode tok) with
  | Err e => (Err e, r)
  | Ok ids =>
      match call_input_size input_size r with
      | (Err e, r') => (Err e, r')
      | (Ok n, r') =>
          let sample1 :=
            <["input_ids" := PTensor (slice_to n ids)]> sample in
          match rbind (getitem "input_ids" sample1) as_tensor with
          | Err e => (Err e, r')
          | Ok input_ids =>
              (Ok (<["query" := PStr (tok_decode tok input_ids)]> sample1),
               r')
          end
      end
  end.

(** The defaults of [build_dataset]'s signature, used by the call of
    line 59. *)
Definition input_min_text_length : Z := 2.
Definition input_max_text_length : Z := 8.
Definition input_size : LengthSampler :=
  LengthSampler_init input_min_text_length input_max_text_length.

(** A row that [tokenize] returned. *)
Definition tokenized (tok : Tokenizer) (d : gmap string pyval) : Prop :=
  ∃ sample r r', tokenize tok input_size sample r = (Ok d, r').

Module Reviews.

(** A tokenizer with one token per character. *)
Definition tok : Tokenizer :=
  {| tok_encode := λ v,
       match v with
       | PStr s => Ok ((λ c, Z.of_nat (Ascii.nat_of_ascii c))
                         <$> String.list_ascii_of_string s)
       | _ => Err TypeError
       end;
     tok_decode := Toy.decode |}.

Definition row1 : gmap string pyval :=
  {[ "review" := PStr "I loved this film"; "label" := PInt 1 ]}.
Definition row2 : gmap string pyval :=
  {[ "review" := PStr "Bad"; "label" := PInt 0 ]}.
Definition row_no_review : gmap string pyval :=
  {[ "text" := PStr "I loved this film"; "label" := PInt 1 ]}.

(** The first row as [tokenize] returns it. *)
Definition tokenized1 : gmap string pyval :=
  match tokenize tok input_size row1 Toy.rng with
  | (Ok d, _) => d
  | (Err _, _) => ∅
  end.

End Reviews.

Module Faults.

(** Collaborators whose logging sink raises. *)
Definition caps_unlogged : Collaborators :=
  {| Trainer := nat;
     Stats := list (string * Q);
     ppo_generate := Toy.generate_echo;
     tokenizer_decode := Toy.decode;
     eos_token_id := 50256;
     classifier := Toy.classify_ranked;
     ppo_step := λ t _ _ _ _ _, (Ok [("ppo/loss", 1 # 2)], S t);
     ppo_log_stats := λ t _ _ _, (Err (RuntimeError "tracker offline"), t) |}.

Definition w0_unlogged : World caps_unlogged :=
  initial_world caps_unlogged 0%nat Toy.rng.

End Faults.

(** ** Lemmas on comprehensions *)

Lemma comprehension_Ok_length {A B} (f : A → result B) l ys :
  comprehension f l = Ok ys → length ys = length l.
Proof.
  revert ys. induction l as [|x l IH]; intros ys H; simpl in H.
  - by inversion H.
  - destruct (f x) as [y|]; simpl in H; [|done].
    destruct (comprehension f l) as [ys'|]; simpl in H; [|done].
    inversion H; subst. simpl. f_equal. by apply IH.
Qed.

Lemma comprehension_Ok_lookup {A B} (f : A → result B) l ys i x :
  comprehension f l = Ok ys → l !! i = Some x →
  ∃ y, ys !! i = Some y ∧ f x = Ok y.
Proof.
  revert ys i. induction l as [|a l IH]; intros ys i H Hi; [done|].
  simpl in H. destruct (f a) as [y|] eqn:Hfa; simpl in H; [|done].
  destruct (comprehension f l) as [ys'|] eqn:Hl; simpl in H; [|done].
  inversion H; subst. destruct i as [|i]; simpl in *.
  - inversion Hi; subst. eauto.
  - by eapply IH.
Qed.

Lemma comprehension_Ok_lookup_inv {A B} (f : A → result B) l ys i y :
  comprehension f l = Ok ys → ys !! i = Some y →
  ∃ x, l !! i = Some x ∧ f x = Ok y.
Proof.
  intros H Hi.
  assert (Hlen := comprehension_Ok_length _ _ _ H).
  apply lookup_lt_Some in Hi as Hlt. rewrite Hlen in Hlt.
  destruct (lookup_lt_is_Some_2 l i Hlt) as [x Hx].
  destruct (comprehension_Ok_lookup _ _ _ _ _ H Hx) as (y' & Hy' & Hf).
  exists x. split; [done|]. congruence.
Qed.

Lemma comprehension_total {A B} (f : A → result B) l :
  (∀ x, x ∈ l → ∃ y, f x = Ok y) → ∃ ys, comprehension f l = Ok ys.
Proof.
  induction l as [|a l IH]; intros H; simpl; [by eexists|].
  destruct (H a) as [y Hy]; [by left|]. rewrite Hy. simpl.
  destruct IH as [ys Hys]; [intros; apply H; by right|].
  rewrite Hys. simpl. by eexists.
Qed.

Lemma comprehension_Ok_fmap {A B} (g : A → B) l :
  comprehension (λ x, Ok (g x)) l = Ok (g <$> l).
Proof. induction l as [|a l IH]; simpl; [done|]. by rewrite IH. Qed.

(** ** The collator keeps every column in record order *)

Lemma collator_items_fst {V} (data : list (gmap string V)) keys items :
  comprehension
    (λ key, rbind (comprehension (getitem key) data) (λ col, Ok (key, col)))
    keys = Ok items →
  items.*1 = keys.
Proof.
  revert items. induction keys as [|k keys IH]; intros items H; simpl in H.
  - by inversion H.
  - destruct (comprehension (getitem k) data) as [col|]; simpl in H; [|done].
    destruct (comprehension _ keys) as [its|]; simpl in H; [|done].
    inversion H; subst. simpl. f_equal. by apply IH.
Qed.

Lemma collator_columns {V} (data : list (gmap string V)) (d0 : gmap string V) :
  data !! 0%nat = Some d0 →
  (∀ d, d ∈ data → dom d0 ⊆ dom d) →
  ∃ batch, collator data = Ok batch ∧
    dom batch = dom d0 ∧
    ∀ k, k ∈ dom d0 →
      ∃ col, batch !! k = Some col ∧
        length col = length data ∧
        ∀ i d, data !! i = Some d → ∃ v, d !! k = Some v ∧ col !! i = Some v.
Proof.
  intros H0 Hkeys.
  destruct data as [|d0' rest]; [done|]. simpl in H0. inversion H0; subst d0'.
  unfold collator. set (data := d0 :: rest) in *.
  set (keys := map fst (map_to_list d0)).
  assert (Hk : ∀ k, k ∈ keys ↔ k ∈ dom d0).
  { intros k. unfold keys. rewrite elem_of_dom.
    change (map fst (map_to_list d0)) with ((map_to_list d0).*1).
    rewrite list_elem_of_fmap. split.
    - intros ([k' v] & -> & Hin). apply elem_of_map_to_list in Hin. eauto.
    - intros [v Hv]. exists (k, v). split; [done|].
      by apply elem_of_map_to_list. }
  assert (Hcol : ∀ k, k ∈ keys → ∃ col, comprehension (getitem k) data = Ok col).
  { intros k Hin. apply comprehension_total. intros d Hd.
    apply Hk in Hin. apply (Hkeys d Hd) in Hin.
    apply elem_of_dom in Hin as [v Hv]. exists v. unfold getitem. by rewrite Hv. }
  destruct (comprehension_total
              (λ key, rbind (comprehension (getitem key) data)
                            (λ col, Ok (key, col))) keys) as [items Hitems].
  { intros k Hin. destruct (Hcol k Hin) as [col Hc]. rewrite Hc. simpl. eauto. }
  rewrite Hitems. simpl. eexists. split; [done|].
  assert (Hfst := collator_items_fst _ _ _ Hitems).
  assert (Hnd : NoDup (items.*1)).
  { rewrite Hfst. apply NoDup_fst_map_to_list. }
  split.
  - apply set_eq. intros k. rewrite dom_list_to_map_L, elem_of_list_to_set.
    rewrite Hfst. apply Hk.
  - intros k Hkd. apply Hk in Hkd. apply list_elem_of_lookup in Hkd as [j Hj].
    destruct (comprehension_Ok_lookup _ _ _ _ _ Hitems Hj) as ([k' col] & Hit & Hf).
    destruct (comprehension (getitem k) data) as [col'|] eqn:Hc; simpl in Hf; [|done].
    inversion Hf; subst k' col'. exists col. split; [|split].
    + apply elem_of_list_to_map_1; [done|]. eapply list_elem_of_lookup_2; eauto.
    + by apply comprehension_Ok_length in Hc.
    + intros i d Hd.
      destruct (comprehension_Ok_lookup _ _ _ _ _ Hc Hd) as (v & Hv & Hg).
      exists v. split; [|done]. unfold getitem in Hg.
      destruct (d !! k); by inversion Hg.
Qed.

(** C9: for a non-empty list of records that all carry the keys of the
    first record, the collator returns a mapping over exactly those
    keys; the list under key [k] has length [len(data)] and its [i]-th
    element is [data[i][k]]. *)
Theorem collator_positional {V} (data : list (gmap string V)) (d0 : gmap string V) :
  data !! 0%nat = Some d0 →
  (∀ d, d ∈ data → dom d0 ⊆ dom d) →
  ∃ batch, collator data = Ok batch ∧
    dom batch = dom d0 ∧
    ∀ k, k ∈ dom d0 →
      ∃ col, batch !! k = Some col ∧
        length col = length data ∧
        ∀ i d, data !! i = Some d → ∃ v, d !! k = Some v ∧ col !! i = Some v.
Proof. apply collator_columns. Qed.

(** ** Slices and the sampler's range *)

Lemma slice_from_last_length {A} (n : Z) (l : list A) :
  0 < n ≤ Z.of_nat (length l) → Z.of_nat (length (slice_from (- n) l)) = n.
Proof.
  intros [Hpos Hle]. unfold slice_from.
  destruct (Z.ltb_spec (- n) 0) as [_|Hge]; [|lia].
  rewrite length_drop. lia.
Qed.

Lemma slice_from_last_short {A} (n : Z) (l : list A) :
  Z.of_nat (length l) ≤ n → 0 < n → slice_from (- n) l = l.
Proof.
  intros Hle Hpos. unfold slice_from.
  destruct (Z.ltb_spec (- n) 0) as [_|Hge]; [|lia].
  replace (Z.to_nat (Z.max 0 (- n + Z.of_nat (length l)))) with 0%nat by lia.
  done.
Qed.

Lemma LengthSampler_values_range lo hi v :
  v ∈ values (LengthSampler_init lo hi) → lo ≤ v < hi.
Proof.
  unfold LengthSampler_init; simpl. intros Hin.
  apply list_elem_of_lookup in Hin as [i Hi].
  apply lookup_seqZ in Hi. lia.
Qed.

Lemma choice_range lo hi r v :
  choice (LengthSampler_init lo hi) r = Some v → lo ≤ v < hi.
Proof.
  unfold choice. intros H. eapply LengthSampler_values_range.
  eapply list_elem_of_lookup_2; eauto.
Qed.

Lemma choice_total lo hi r :
  lo < hi → ∃ v, choice (LengthSampler_init lo hi) r = Some v.
Proof.
  intros Hlt. unfold choice, LengthSampler_init; simpl.
  apply lookup_lt_is_Some_2. apply Nat.mod_upper_bound.
  rewrite length_seqZ. lia.
Qed.

Lemma choice_at_0 ls r : choice_at ls r 0 = choice ls r.
Proof. unfold choice_at. rewrite Nat.add_0_r. by destruct r. Qed.

Lemma choice_at_advance ls r i :
  choice_at ls (advance r) i = choice_at ls r (S i).
Proof.
  unfold choice_at, advance; simpl. by rewrite Nat.add_succ_r.
Qed.

(** ** Running computations *)

Section Facts.
Context (C : Collaborators).

Implicit Types (w : World C).

Lemma bind_Ok_inv {A B} (c : M C A) (k : A → M C B) w b w' :
  bind c k w = (Ok b, w') →
  ∃ a w1, c w = (Ok a, w1) ∧ k a w1 = (Ok b, w').
Proof.
  unfold bind. destruct (c w) as [[a|e] w1]; [eauto|done].
Qed.

Lemma bind_Ok {A B} (c : M C A) (k : A → M C B) w a w1 :
  c w = (Ok a, w1) → bind c k w = k a w1.
Proof. unfold bind. by intros ->. Qed.

Lemma bind_Err {A B} (c : M C A) (k : A → M C B) w e w1 :
  c w = (Err e, w1) → bind c k w = (Err e, w1).
Proof. unfold bind. by intros ->. Qed.

Lemma bind_Err_inv {A B} (c : M C A) (k : A → M C B) w e w' :
  bind c k w = (Err e, w') →
  c w = (Err e, w') ∨ ∃ a w1, c w = (Ok a, w1) ∧ k a w1 = (Err e, w').
Proof.
  unfold bind. destruct (c w) as [[a|e'] w1]; [eauto|].
  intros [= -> ->]. by left.
Qed.

(** *** One pass of the generation loop *)

(** What one successful call [gen_len = sampler(); kwargs[...] =
    gen_len; generate(query, **kwargs)] does to the world. *)
Lemma generate_Ok_inv query w out w' :
  generate C query w = (Ok out, w') →
  ∃ q, query = PTensor q ∧
    ppo_generate C (trainer w) q (generation_kwargs w)
      = (Ok out, trainer w') ∧
    np_random w' = np_random w ∧
    generation_kwargs w' = generation_kwargs w ∧
    batch w' = batch w ∧
    trace w' = trace w ++ [EvGenerate q (generation_kwargs w)].
Proof.
  unfold generate. destruct query; simpl; try done.
  destruct (ppo_generate C _ _ _) as [r t'] eqn:Hg. simpl in Hg.
  intros [= -> <-]. exists t. by rewrite Hg.
Qed.

Lemma generate_responses_spec query_tensors acc w rts w' :
  generate_responses C query_tensors acc w = (Ok rts, w') →
  ∃ new evs,
    rts = acc ++ new ∧
    length new = length query_tensors ∧
    length evs = length query_tensors ∧
    trace w' = trace w ++ evs ∧
    batch w' = batch w ∧
    np_random w' =
      {| entropy := entropy (np_random w);
         cursor := (cursor (np_random w) + length query_tensors)%nat |} ∧
    delete gen_key (generation_kwargs w')
      = delete gen_key (generation_kwargs w) ∧
    ∀ i query, query_tensors !! i = Some query →
      ∃ q gen_len out tr tr',
        query = PTensor q ∧
        choice_at output_length_sampler (np_random w) i = Some gen_len ∧
        evs !! i = Some (EvGenerate q
                    (<[gen_key := PInt gen_len]> (generation_kwargs w))) ∧
        ppo_generate C tr q
          (<[gen_key := PInt gen_len]> (generation_kwargs w))
          = (Ok out, tr') ∧
        new !! i = Some (slice_from (- gen_len) out).
Proof.
  revert acc w. induction query_tensors as [|query rest IH]; intros acc w H.
  - simpl in H. inversion H; subst. exists [], [].
    rewrite !app_nil_r, Nat.add_0_r. split_and!; try done.
    by destruct (np_random w').
  - simpl in H.
    apply bind_Ok_inv in H as (gen_len & w1 & Hs & H).
    apply bind_Ok_inv in H as ([] & w2 & Hk & H).
    apply bind_Ok_inv in H as (out & w3 & Hg & H).
    unfold call_sampler in Hs.
    destruct (choice _ (np_random w)) as [v|] eqn:Hc; [|done].
    inversion Hs; subst v w1; clear Hs.
    unfold generation_kwargs_setitem in Hk. inversion Hk; subst w2; clear Hk.
    apply generate_Ok_inv in Hg as (q & -> & Hgen & Hr3 & Hk3 & Hb3 & Ht3).
    simpl in *.
    apply IH in H as (new & evs & -> & Hn & He & Ht & Hb & Hr & Hk & Hall).
    exists (slice_from (- gen_len) out :: new),
           (EvGenerate q (<[gen_key := PInt gen_len]> (generation_kwargs w))
              :: evs).
    rewrite Ht, Ht3, Hb, Hb3, Hr, Hr3, Hk, Hk3. simpl.
    rewrite <- !app_assoc. simpl.
    split_and!; try done; try (f_equal; lia).
    + apply delete_insert_eq.
    + intros [|i] query Hq; simpl in Hq.
      * inversion Hq; subst query. exists q, gen_len, out.
        eexists _, _. rewrite choice_at_0. split_and!; eauto.
      * destruct (Hall i query Hq) as (q' & L & out' & tr & tr' & -> & HL & Hev & Hgen' & Hnew).
        rewrite Hr3, choice_at_advance in HL.
        rewrite Hk3, insert_insert_eq in Hev, Hgen'.
        exists q', L, out', tr, tr'. split_and!; eauto.
Qed.

(** *** One call of [get_rewards] *)

Lemma get_rewards_spec query_tensors ref_model w rts rws w' :
  get_rewards C query_tensors ref_model w = (Ok (rts, rws), w') →
  ∃ w1 queries texts outs,
    generate_responses C query_tensors [] w = (Ok rts, w1) ∧
    batch w !! "query" = Some queries ∧
    comprehension add_text (zip queries (decoded C rts)) = Ok texts ∧
    comprehension (classifier C sent_kwargs) texts = Ok outs ∧
    comprehension reward_of outs = Ok rws ∧
    batch w' = <["response" := decoded C rts]> (batch w) ∧
    trace w' = trace w1 ++ [EvPipe texts sent_kwargs] ∧
    trainer w' = trainer w1 ∧
    np_random w' = np_random w1 ∧
    generation_kwargs w' = generation_kwargs w1.
Proof.
  unfold get_rewards. intros H.
  apply bind_Ok_inv in H as (rts' & w1 & Hgen & H).
  apply bind_Ok_inv in H as ([] & w2 & Hset & H).
  apply bind_Ok_inv in H as (queries & w3 & Hq & H).
  apply bind_Ok_inv in H as (responses & w4 & Hr & H).
  apply bind_Ok_inv in H as (texts & w5 & Ht & H).
  apply bind_Ok_inv in H as (outs & w6 & Hp & H).
  apply bind_Ok_inv in H as (rewards & w7 & Hrw & H).
  unfold ret in H. inversion H; subst rts' rewards w7; clear H.
  unfold batch_setitem in Hset. inversion Hset; subst w2; clear Hset.
  unfold batch_getitem, getitem in Hq, Hr. simpl in Hq.
  rewrite lookup_insert_ne in Hq by done.
  destruct (batch w1 !! "query") as [qs|] eqn:Hqs; [|done].
  inversion Hq; subst qs w3; clear Hq.
  simpl in Hr. rewrite lookup_insert_eq in Hr.
  inversion Hr; subst responses w4; clear Hr.
  unfold lift in Ht, Hrw. inversion Ht as [[Ht' Hw5]]; subst w5; clear Ht.
  unfold sentiment_pipe in Hp. inversion Hp as [[Hp' Hw6]]; subst w6; clear Hp.
  inversion Hrw as [[Hrw' Hw']]; subst w'; clear Hrw. simpl.
  apply generate_responses_spec in Hgen as Hspec.
  destruct Hspec as (new & evs & _ & _ & _ & _ & Hb & _).
  rewrite Hb in Hqs |- *.
  exists w1, queries, texts, outs. by split_and!.
Qed.

(** Each scored text is the [i]-th query text followed by the decoded
    [i]-th response. *)
Lemma texts_lookup queries rts texts i text :
  comprehension add_text (zip queries (decoded C rts)) = Ok texts →
  texts !! i = Some text →
  ∃ q r, queries !! i = Some (PStr q) ∧ rts !! i = Some r ∧
    text = q +:+ tokenizer_decode C r.
Proof.
  intros H Hi.
  destruct (comprehension_Ok_lookup_inv _ _ _ _ _ H Hi) as ([qv rv] & Hz & Ha).
  apply lookup_zip_with_Some in Hz as (qv' & rv' & [= <- <-] & Hq & Hr).
  unfold decoded in Hr. rewrite list_lookup_fmap in Hr.
  destruct (rts !! i) as [r|] eqn:Hrt; [|done]. simpl in Hr.
  inversion Hr; subst rv. destruct qv; try done. simpl in Ha.
  inversion Ha; subst. eauto.
Qed.

Lemma texts_length queries rts texts :
  comprehension add_text (zip queries (decoded C rts)) = Ok texts →
  length texts = Nat.min (length queries) (length rts).
Proof.
  intros H. apply comprehension_Ok_length in H. rewrite H.
  unfold decoded. by rewrite length_zip_with, length_fmap.
Qed.

End Facts.

(** C1: in a call of [get_rewards], the [i]-th query gets the [i]-th
    fresh draw [L] of the length sampler, [4 <= L < 16]; generation is
    called for it with [max_new_tokens = L]; and the response tensor
    appended for it has exactly [L] tokens. *)
Theorem get_rewards_sampled_lengths (C : Collaborators)
    query_tensors ref_model (w : World C) rts rws w' :
  generation_contract C →
  get_rewards C query_tensors ref_model w = (Ok (rts, rws), w') →
  ∃ evs texts,
    trace w' = trace w ++ evs ++ [EvPipe texts sent_kwargs] ∧
    length evs = length query_tensors ∧
    length rts = length query_tensors ∧
    ∀ i query, query_tensors !! i = Some query →
      ∃ q L kwargs response,
        query = PTensor q ∧
        choice_at output_length_sampler (np_random w) i = Some L ∧
        4 ≤ L < 16 ∧
        evs !! i = Some (EvGenerate q kwargs) ∧
        kwargs !! "max_new_tokens" = Some (PInt L) ∧
        rts !! i = Some response ∧
        Z.of_nat (length response) = L.
Proof.
  intros Hcontract H.
  apply get_rewards_spec in H
    as (w1 & queries & texts & outs & Hgen & _ & _ & _ & _ & _ & Ht & _).
  apply generate_responses_spec in Hgen
    as (new & evs & -> & Hn & He & Ht1 & _ & _ & _ & Hall).
  exists evs, texts. rewrite Ht, Ht1, <- app_assoc. split_and!; try done.
  intros i query Hq.
  destruct (Hall i query Hq)
    as (q & L & out & tr & tr' & -> & HL & Hev & Hg & Hnew).
  assert (HLr : 4 ≤ L < 16) by (eapply choice_range, HL).
  exists q, L, (<[gen_key := PInt L]> (generation_kwargs w)),
    (slice_from (- L) out).
  split_and!; try done; try lia.
  - apply lookup_insert_eq.
  - apply slice_from_last_length. split; [lia|].
    eapply Hcontract; [|exact Hg]. apply lookup_insert_eq.
Qed.

Module ToyFacts.
Import Toy.

Lemma echo_contract : generation_contract caps.
Proof.
  intros tr q kwargs n out tr' Hk. simpl. unfold generate_echo.
  rewrite Hk. intros [= <- _].
  rewrite length_app, length_replicate. lia.
Qed.

Lemma caps_succeed : collaborators_succeed caps.
Proof.
  split_and!; simpl.
  - intros tr q kwargs n Hk. unfold generate_echo. rewrite Hk. eauto.
  - intros text. unfold classify_ranked. eauto.
  - eauto.
  - eauto.
Qed.

End ToyFacts.

Lemma get_rewards_sampled_lengths_witness :
  ∃ rts rws w',
    get_rewards Toy.caps Toy.queries2 false Toy.w2 = (Ok (rts, rws), w') ∧
    ∃ evs texts,
      trace w' = trace Toy.w2 ++ evs ++ [EvPipe texts sent_kwargs] ∧
      length evs = length Toy.queries2 ∧
      length rts = length Toy.queries2 ∧
      ∀ i query, Toy.queries2 !! i = Some query →
        ∃ q L kwargs response,
          query = PTensor q ∧
          choice_at output_length_sampler (np_random Toy.w2) i
            = Some L ∧
          4 ≤ L < 16 ∧
          evs !! i = Some (EvGenerate q kwargs) ∧
          kwargs !! "max_new_tokens" = Some (PInt L) ∧
          rts !! i = Some response ∧
          Z.of_nat (length response) = L.
Proof.
  eexists _, _, _. split; [vm_compute; reflexivity|].
  eapply (get_rewards_sampled_lengths Toy.caps Toy.queries2 false Toy.w2
            _ _ _ ToyFacts.echo_contract).
  vm_compute; reflexivity.
Defined.

Lemma collator_positional_witness :
  ∃ batch, collator [Toy.record1; Toy.record2] = Ok batch ∧
    dom batch = dom Toy.record1 ∧
    ∀ k, k ∈ dom Toy.record1 →
      ∃ col, batch !! k = Some col ∧
        length col = length [Toy.record1; Toy.record2] ∧
        ∀ i d, [Toy.record1; Toy.record2] !! i = Some d →
          ∃ v, d !! k = Some v ∧ col !! i = Some v.
Proof.
  apply (collator_positional [Toy.record1; Toy.record2] Toy.record1).
  - reflexivity.
  - intros d Hd. apply elem_of_cons in Hd as [->|Hd]; [done|].
    apply list_elem_of_singleton in Hd as ->. vm_compute. done.
Defined.

Lemma get_rewards_reward_lookup (C : Collaborators)
    query_tensors ref_model (w : World C) rts rws w' i r :
  get_rewards C query_tensors ref_model w = (Ok (rts, rws), w') →
  rws !! i = Some r →
  ∃ queries q response output e,
    batch w !! "query" = Some queries ∧
    queries !! i = Some (PStr q) ∧ rts !! i = Some response ∧
    classifier C sent_kwargs (q +:+ tokenizer_decode C response) = Ok output ∧
    output !! 1%nat = Some e ∧ r = score e.
Proof.
  intros H Hi.
  apply get_rewards_spec in H
    as (w1 & queries & texts & outs & _ & Hq & Ht & Ho & Hr & _).
  destruct (comprehension_Ok_lookup_inv _ _ _ _ _ Hr Hi) as (out & Hout & Hrew).
  destruct (comprehension_Ok_lookup_inv _ _ _ _ _ Ho Hout) as (text & Htext & Hcl).
  destruct (texts_lookup _ _ _ _ _ _ Ht Htext) as (q & resp & Hqi & Hri & ->).
  unfold reward_of in Hrew. destruct (out !! 1%nat) as [e|] eqn:He; [|done].
  inversion Hrew; subst r. exists queries, q, resp, out, e. by split_and!.
Qed.

(** C2, as the spec states it, fails: on a classifier that ranks the
    positive label first, the reward of the first item is the score of
    the negative label. *)
Lemma rewards_not_label_matched :
  ¬ rewards_are_positive_scores Toy.caps Toy.queries2 Toy.w2.
Proof.
  intros H.
  destruct (H [[7; 7; 7; 7; 7]; [7; 7; 7; 7; 7; 7; 7; 7; 7; 7]]
              [1 # 10; 1 # 10]%Q
              (snd (get_rewards Toy.caps Toy.queries2 false Toy.w2))
              ltac:(vm_compute; reflexivity) 0%nat (1 # 10)%Q eq_refl)
    as (queries & q & response & output & Hq & Hqi & Hri & Hcl & Hpos).
  simpl in Hcl. unfold Toy.classify_ranked in Hcl.
  inversion Hcl; subst output. vm_compute in Hpos. discriminate Hpos.
Qed.

(** C2, amended: every reward is the score of the entry at index 1 of
    the list the classifier returns for the [i]-th query text followed
    by the [i]-th decoded response; the entry is taken by position.  It
    is the label-matched positive score when that entry carries the
    positive label and the entry before it does not. *)
Theorem rewards_are_second_entry_scores (C : Collaborators)
    query_tensors ref_model (w : World C) rts rws w' i r :
  get_rewards C query_tensors ref_model w = (Ok (rts, rws), w') →
  rws !! i = Some r →
  ∃ queries q response output e,
    batch w !! "query" = Some queries ∧
    queries !! i = Some (PStr q) ∧ rts !! i = Some response ∧
    classifier C sent_kwargs (q +:+ tokenizer_decode C response) = Ok output ∧
    output !! 1%nat = Some e ∧ r = score e ∧
    (label e = positive_label →
     (∀ e0, output !! 0%nat = Some e0 → label e0 ≠ positive_label) →
     positive_score output = Some r).
Proof.
  intros H Hi.
  destruct (get_rewards_reward_lookup _ _ _ _ _ _ _ _ _ H Hi)
    as (queries & q & resp & out & e & Hq & Hqi & Hri & Hcl & He & ->).
  exists queries, q, resp, out, e. split_and!; try done.
  intros Hlab Hfirst. destruct out as [|e0 [|e1 out]]; try done.
  simpl in He. inversion He; subst e1.
  unfold positive_score. simpl.
  specialize (Hfirst e0 eq_refl). apply String.eqb_neq in Hfirst.
  rewrite Hfirst. apply String.eqb_eq in Hlab. by rewrite Hlab.
Qed.

Lemma rewards_are_second_entry_scores_witness :
  ∃ rts rws w',
    get_rewards Toy.caps Toy.queries2 false Toy.w2 = (Ok (rts, rws), w') ∧
    ∃ queries q response output e,
      batch Toy.w2 !! "query" = Some queries ∧
      queries !! 0%nat = Some (PStr q) ∧ rts !! 0%nat = Some response ∧
      classifier Toy.caps sent_kwargs (q +:+ tokenizer_decode Toy.caps response)
        = Ok output ∧
      output !! 1%nat = Some e ∧ (1 # 10)%Q = score e ∧
      (label e = positive_label →
       (∀ e0, output !! 0%nat = Some e0 → label e0 ≠ positive_label) →
       positive_score output = Some (1 # 10)%Q).
Proof.
  eexists _, _, _. split; [vm_compute; reflexivity|].
  eapply (rewards_are_second_entry_scores Toy.caps Toy.queries2 false Toy.w2).
  - vm_compute; reflexivity.
  - reflexivity.
Defined.

(** C3: [get_rewards] never looks at [ref_model]: on the same query
    tensors and from the same world (batch, generator state, trainer),
    the call labelled [ref_model=True] returns the same responses and
    rewards and leaves the same world, trace of generation calls
    included, as the call with the default. *)
Theorem get_rewards_ignores_ref_model (C : Collaborators)
    query_tensors (w : World C) :
  get_rewards C query_tensors true w = get_rewards C query_tensors false w.
Proof. reflexivity. Qed.

(** C4: the [i]-th reward is [score_text] applied to the [i]-th query
    text followed by the [i]-th decoded response: a function of that one
    text, whatever else is in the batch. *)
Theorem rewards_positionally_aligned (C : Collaborators)
    query_tensors ref_model (w : World C) rts rws w' :
  get_rewards C query_tensors ref_model w = (Ok (rts, rws), w') →
  ∃ queries responses,
    batch w' !! "query" = Some queries ∧
    batch w' !! "response" = Some responses ∧
    ∀ i r, rws !! i = Some r →
      ∃ q response,
        queries !! i = Some (PStr q) ∧
        rts !! i = Some response ∧
        responses !! i = Some (PStr (tokenizer_decode C response)) ∧
        score_text C (q +:+ tokenizer_decode C response) = Ok r.
Proof.
  intros H.
  assert (Hspec := get_rewards_spec _ _ _ _ _ _ _ H).
  destruct Hspec as (w1 & queries & texts & outs & _ & Hq & _ & _ & _ & Hb & _).
  exists queries, (decoded C rts). rewrite Hb. split_and!.
  - by rewrite lookup_insert_ne.
  - by rewrite lookup_insert_eq.
  - intros i r Hi.
    destruct (get_rewards_reward_lookup _ _ _ _ _ _ _ _ _ H Hi)
      as (queries' & q & resp & out & e & Hq' & Hqi & Hri & Hcl & He & ->).
    rewrite Hq in Hq'. inversion Hq'; subst queries'.
    exists q, resp. split_and!; try done.
    + unfold decoded. by rewrite list_lookup_fmap, Hri.
    + unfold score_text. rewrite Hcl. simpl. unfold reward_of. by rewrite He.
Qed.

Lemma rewards_positionally_aligned_witness :
  ∃ rts rws w',
    get_rewards Toy.caps Toy.queries2 false Toy.w2 = (Ok (rts, rws), w') ∧
    ∃ queries responses,
      batch w' !! "query" = Some queries ∧
      batch w' !! "response" = Some responses ∧
      ∀ i r, rws !! i = Some r →
        ∃ q response,
          queries !! i = Some (PStr q) ∧
          rts !! i = Some response ∧
          responses !! i = Some (PStr (tokenizer_decode Toy.caps response)) ∧
          score_text Toy.caps (q +:+ tokenizer_decode Toy.caps response) = Ok r.
Proof.
  eexists _, _, _. split; [vm_compute; reflexivity|].
  eapply (rewards_positionally_aligned Toy.caps Toy.queries2 false Toy.w2).
  vm_compute; reflexivity.
Defined.

(** ** One iteration of the loop *)

Lemma collator_Ok_lookup {V} (data : list (gmap string V)) b k col :
  collator data = Ok b → b !! k = Some col →
  comprehension (getitem k) data = Ok col.
Proof.
  unfold collator. destruct data as [|d0 rest]; [done|].
  set (data := d0 :: rest).
  destruct (comprehension _ (map fst (map_to_list d0))) as [items|] eqn:Hit;
    simpl; [|done].
  intros [= <-] Hk. apply elem_of_list_to_map_2 in Hk.
  apply list_elem_of_lookup in Hk as [j Hj].
  destruct (comprehension_Ok_lookup_inv _ _ _ _ _ Hit Hj) as (k' & _ & Hf).
  destruct (comprehension (getitem k') data) as [col'|] eqn:Hcol;
    simpl in Hf; [|done].
  inversion Hf; subst k' col'. exact Hcol.
Qed.

Lemma collator_Ok_length {V} (data : list (gmap string V)) b k col :
  collator data = Ok b → b !! k = Some col → length col = length data.
Proof.
  intros Hc Hk. eapply comprehension_Ok_length, collator_Ok_lookup; eauto.
Qed.

Section Iteration.
Context (C : Collaborators).

Implicit Types (w : World C).

Lemma step_Ok_inv qts rts rts_ref rws rws_ref w stats w' :
  step C qts rts rts_ref rws rws_ref w = (Ok stats, w') →
  ppo_step C (trainer w) qts rts rts_ref rws rws_ref
    = (Ok stats, trainer w') ∧
  batch w' = batch w ∧
  trace w' = trace w ++ [EvStep qts rts rts_ref rws rws_ref].
Proof.
  unfold step. simpl.
  destruct (ppo_step C _ _ _ _ _ _) as [r t'] eqn:Hs.
  intros [= -> <-]. simpl. by split_and!.
Qed.

Lemma log_stats_Ok_inv stats rws w w' :
  log_stats C stats rws w = (Ok tt, w') →
  batch w' = batch w ∧
  trace w' = trace w ++ [EvLog stats (batch w) rws].
Proof.
  unfold log_stats. simpl.
  destruct (ppo_log_stats C _ _ _ _) as [r t'].
  by intros [= -> <-].
Qed.

Lemma loop_body_Ok_inv w w' :
  loop_body C w = (Ok tt, w') →
  ∃ qts rts rws w1 rts_ref rws_ref w2 stats w3,
    batch w !! "input_ids" = Some qts ∧
    get_rewards C qts false w = (Ok (rts, rws), w1) ∧
    get_rewards C qts true w1 = (Ok (rts_ref, rws_ref), w2) ∧
    step C qts rts rts_ref rws rws_ref w2 = (Ok stats, w3) ∧
    log_stats C stats rws w3 = (Ok tt, w').
Proof.
  unfold loop_body. intros H.
  apply bind_Ok_inv in H as (qts & w0 & Hq & H).
  unfold batch_getitem, getitem in Hq.
  destruct (batch w !! "input_ids") as [qts'|] eqn:Hin; [|done].
  inversion Hq; subst qts' w0; clear Hq.
  apply bind_Ok_inv in H as ([rts rws] & w1 & H1 & H).
  apply bind_Ok_inv in H as ([rts_ref rws_ref] & w2 & H2 & H).
  apply bind_Ok_inv in H as (stats & w3 & Hs & H).
  exists qts, rts, rws, w1, rts_ref, rws_ref, w2, stats, w3. by split_and!.
Qed.

Lemma iteration_Ok_inv chunk w w' :
  iteration C chunk w = (Ok tt, w') →
  ∃ b, collator chunk = Ok b ∧ loop_body C (set_batch C b w) = (Ok tt, w').
Proof.
  unfold iteration. intros H.
  apply bind_Ok_inv in H as (b & w0 & Hc & H).
  unfold lift in Hc. inversion Hc as [[Hc' Hw]]; subst w0.
  apply bind_Ok_inv in H as ([] & w1 & Hset & H).
  inversion Hset; subst w1. eauto.
Qed.

(** What one successful call of [get_rewards] leaves behind. *)
Lemma get_rewards_effect qts ref_model w rts rws w' :
  get_rewards C qts ref_model w = (Ok (rts, rws), w') →
  ∃ queries evs,
    batch w !! "query" = Some queries ∧
    batch w' = <["response" := decoded C rts]> (batch w) ∧
    length rts = length qts ∧
    length rws = Nat.min (length queries) (length qts) ∧
    trace w' = trace w ++ evs ∧
    Forall (λ ev, is_update ev = false) evs.
Proof.
  intros H.
  apply get_rewards_spec in H
    as (w1 & queries & texts & outs & Hgen & Hq & Htx & Ho & Hr & Hb & Ht & _).
  apply generate_responses_spec in Hgen
    as (new & evs & -> & Hn & He & Ht1 & _ & _ & _ & Hall).
  simpl in *. exists queries, (evs ++ [EvPipe texts sent_kwargs]).
  split_and!; try done.
  - apply comprehension_Ok_length in Hr, Ho. rewrite Hr, Ho.
    rewrite (texts_length _ _ _ _ Htx). by rewrite Hn.
  - by rewrite Ht, Ht1, <- app_assoc.
  - apply Forall_app. split; [|by repeat constructor].
    apply Forall_forall. intros ev Hin.
    apply list_elem_of_lookup in Hin as [i Hi].
    apply lookup_lt_Some in Hi as Hlt. rewrite He in Hlt.
    destruct (lookup_lt_is_Some_2 qts i Hlt) as [query Hq'].
    destruct (Hall i query Hq') as (q & L & out & tr & tr' & _ & _ & Hev & _).
    rewrite Hi in Hev. by inversion Hev.
Qed.

(** A successful iteration, stage by stage. *)
Lemma iteration_stages chunk w w' :
  iteration C chunk w = (Ok tt, w') →
  ∃ b qts rts rws w1 rts_ref rws_ref w2 stats tr evs,
    collator chunk = Ok b ∧
    b !! "input_ids" = Some qts ∧
    get_rewards C qts false (set_batch C b w) = (Ok (rts, rws), w1) ∧
    get_rewards C qts true w1 = (Ok (rts_ref, rws_ref), w2) ∧
    ppo_step C (trainer w2) qts rts rts_ref rws rws_ref = (Ok stats, tr) ∧
    batch w1 = <["response" := decoded C rts]> b ∧
    batch w2 = <["response" := decoded C rts_ref]> b ∧
    batch w' = batch w2 ∧
    trace w' = trace w ++ evs
      ++ [EvStep qts rts rts_ref rws rws_ref; EvLog stats (batch w2) rws] ∧
    Forall (λ ev, is_update ev = false) evs.
Proof.
  intros H. apply iteration_Ok_inv in H as (b & Hc & H).
  apply loop_body_Ok_inv in H
    as (qts & rts & rws & w1 & rts_ref & rws_ref & w2 & stats & w3
        & Hin & H1 & H2 & Hs & Hl).
  simpl in Hin.
  destruct (get_rewards_effect _ _ _ _ _ _ H1)
    as (q1 & evs1 & _ & Hb1 & _ & _ & Ht1 & Hf1).
  destruct (get_rewards_effect _ _ _ _ _ _ H2)
    as (q2 & evs2 & _ & Hb2 & _ & _ & Ht2 & Hf2).
  apply step_Ok_inv in Hs as (Hps & Hb3 & Ht3).
  apply log_stats_Ok_inv in Hl as (Hb4 & Ht4).
  simpl in Hb1, Ht1.
  exists b, qts, rts, rws, w1, rts_ref, rws_ref, w2, stats, (trainer w3),
    (evs1 ++ evs2).
  split_and!; try done.
  - by rewrite Hb2, Hb1, insert_insert_eq.
  - by rewrite Hb4, Hb3.
  - rewrite Ht4, Hb3, Ht3, Ht2, Ht1. by rewrite <- !app_assoc.
  - by apply Forall_app.
Qed.

End Iteration.

Lemma iteration_lists_lengths (C : Collaborators) chunk (w w' : World C) :
  iteration C chunk w = (Ok tt, w') →
  ∃ b qts rts rws w1 rts_ref rws_ref w2,
    collator chunk = Ok b ∧
    b !! "input_ids" = Some qts ∧
    get_rewards C qts false (set_batch C b w) = (Ok (rts, rws), w1) ∧
    get_rewards C qts true w1 = (Ok (rts_ref, rws_ref), w2) ∧
    length qts = length chunk ∧
    length rts = length qts ∧ length rws = length qts ∧
    length rts_ref = length qts ∧ length rws_ref = length qts.
Proof.
  intros H. apply iteration_Ok_inv in H as (b & Hc & H).
  apply loop_body_Ok_inv in H
    as (qts & rts & rws & w1 & rts_ref & rws_ref & w2 & stats & w3
        & Hin & H1 & H2 & _ & _).
  simpl in Hin.
  destruct (get_rewards_effect _ _ _ _ _ _ _ H1)
    as (q1 & evs1 & Hq1 & Hb1 & Hl1 & Hr1 & _ & _).
  destruct (get_rewards_effect _ _ _ _ _ _ _ H2)
    as (q2 & evs2 & Hq2 & _ & Hl2 & Hr2 & _ & _).
  simpl in Hq1, Hb1. rewrite Hb1, lookup_insert_ne in Hq2 by done.
  assert (Hlq := collator_Ok_length _ _ _ _ Hc Hin).
  assert (Hl1' := collator_Ok_length _ _ _ _ Hc Hq1).
  assert (Hl2' := collator_Ok_length _ _ _ _ Hc Hq2).
  exists b, qts, rts, rws, w1, rts_ref, rws_ref, w2.
  split_and!; try done; lia.
Qed.

(** C5: in every iteration of the loop, each of the two [get_rewards]
    passes produces as many response tensors and as many rewards as the
    batch has query tensors (as many as the batch has records). *)
Theorem iteration_lists_same_length (C : Collaborators) chunk (w w' : World C) :
  iteration C chunk w = (Ok tt, w') →
  ∃ b qts rts rws w1 rts_ref rws_ref w2,
    collator chunk = Ok b ∧
    b !! "input_ids" = Some qts ∧
    get_rewards C qts false (set_batch C b w) = (Ok (rts, rws), w1) ∧
    get_rewards C qts true w1 = (Ok (rts_ref, rws_ref), w2) ∧
    length qts = length chunk ∧
    length rts = length qts ∧ length rws = length qts ∧
    length rts_ref = length qts ∧ length rws_ref = length qts.
Proof. apply iteration_lists_lengths. Qed.

Lemma iteration_lists_same_length_witness :
  ∃ w', iteration Toy.caps [Toy.record1; Toy.record2] Toy.w0 = (Ok tt, w') ∧
  ∃ b qts rts rws w1 rts_ref rws_ref w2,
    collator [Toy.record1; Toy.record2] = Ok b ∧
    b !! "input_ids" = Some qts ∧
    get_rewards Toy.caps qts false (set_batch Toy.caps b Toy.w0)
      = (Ok (rts, rws), w1) ∧
    get_rewards Toy.caps qts true w1 = (Ok (rts_ref, rws_ref), w2) ∧
    length qts = length [Toy.record1; Toy.record2] ∧
    length rts = length qts ∧ length rws = length qts ∧
    length rts_ref = length qts ∧ length rws_ref = length qts.
Proof.
  eexists. split; [vm_compute; reflexivity|].
  eapply (iteration_lists_same_length Toy.caps [Toy.record1; Toy.record2] Toy.w0).
  vm_compute; reflexivity.
Defined.

(** C6: in every iteration the update step is called once, after both
    passes, with the query tensors, the policy responses, the reference
    responses, the policy rewards and the reference rewards in that
    order; the statistics it returns go to the logging sink, last in the
    iteration, with the batch and the policy rewards. *)
Theorem iteration_step_then_log (C : Collaborators) chunk (w w' : World C) :
  iteration C chunk w = (Ok tt, w') →
  ∃ b qts rts rws w1 rts_ref rws_ref w2 stats tr evs,
    collator chunk = Ok b ∧
    b !! "input_ids" = Some qts ∧
    get_rewards C qts false (set_batch C b w) = (Ok (rts, rws), w1) ∧
    get_rewards C qts true w1 = (Ok (rts_ref, rws_ref), w2) ∧
    ppo_step C (trainer w2) qts rts rts_ref rws rws_ref = (Ok stats, tr) ∧
    trace w' = trace w ++ evs
      ++ [EvStep qts rts rts_ref rws rws_ref; EvLog stats (batch w2) rws] ∧
    Forall (λ ev, is_update ev = false) evs.
Proof.
  intros H. apply iteration_stages in H
    as (b & qts & rts & rws & w1 & rts_ref & rws_ref & w2 & stats & tr & evs
        & Hc & Hin & H1 & H2 & Hs & _ & _ & _ & Ht & Hf).
  exists b, qts, rts, rws, w1, rts_ref, rws_ref, w2, stats, tr, evs.
  by split_and!.
Qed.

Lemma iteration_step_then_log_witness :
  ∃ w', iteration Toy.caps [Toy.record1; Toy.record2] Toy.w0 = (Ok tt, w') ∧
  ∃ b qts rts rws w1 rts_ref rws_ref w2 stats tr evs,
    collator [Toy.record1; Toy.record2] = Ok b ∧
    b !! "input_ids" = Some qts ∧
    get_rewards Toy.caps qts false (set_batch Toy.caps b Toy.w0)
      = (Ok (rts, rws), w1) ∧
    get_rewards Toy.caps qts true w1 = (Ok (rts_ref, rws_ref), w2) ∧
    ppo_step Toy.caps (trainer w2) qts rts rts_ref rws rws_ref
      = (Ok stats, tr) ∧
    trace w' = trace Toy.w0 ++ evs
      ++ [EvStep qts rts rts_ref rws rws_ref; EvLog stats (batch w2) rws] ∧
    Forall (λ ev, is_update ev = false) evs.
Proof.
  eexists. split; [vm_compute; reflexivity|].
  eapply (iteration_step_then_log Toy.caps [Toy.record1; Toy.record2] Toy.w0).
  vm_compute; reflexivity.
Defined.

(** C10: the second [get_rewards] call overwrites [batch["response"]]:
    after the first call it holds the decoded policy responses, after
    the second the decoded responses of the pass labelled reference.
    The logging sink, called last, gets that batch together with the
    rewards of the first pass.  Every other key of the batch, the query
    texts and the query tensors among them, is as the collator left it. *)
Theorem second_pass_overwrites_response (C : Collaborators)
    chunk (w w' : World C) :
  iteration C chunk w = (Ok tt, w') →
  ∃ b qts rts rws w1 rts_ref rws_ref w2 stats logged,
    collator chunk = Ok b ∧
    b !! "input_ids" = Some qts ∧
    get_rewards C qts false (set_batch C b w) = (Ok (rts, rws), w1) ∧
    get_rewards C qts true w1 = (Ok (rts_ref, rws_ref), w2) ∧
    batch w1 !! "response" = Some (decoded C rts) ∧
    batch w2 !! "response" = Some (decoded C rts_ref) ∧
    last (trace w') = Some (EvLog stats logged rws) ∧
    logged !! "response" = Some (decoded C rts_ref) ∧
    (∀ k, k ≠ "response" →
       batch w1 !! k = b !! k ∧ batch w2 !! k = b !! k ∧
       logged !! k = b !! k) ∧
    batch w2 !! "input_ids" = Some qts ∧
    batch w2 !! "query" = b !! "query".
Proof.
  intros H. apply iteration_stages in H
    as (b & qts & rts & rws & w1 & rts_ref & rws_ref & w2 & stats & tr & evs
        & Hc & Hin & H1 & H2 & Hs & Hb1 & Hb2 & _ & Ht & _).
  exists b, qts, rts, rws, w1, rts_ref, rws_ref, w2, stats, (batch w2).
  rewrite Ht, Hb1, Hb2. split_and!; try done.
  - apply lookup_insert_eq.
  - apply lookup_insert_eq.
  - change [EvStep qts rts rts_ref rws rws_ref; ?ev]
      with ([EvStep qts rts rts_ref rws rws_ref] ++ [ev]).
    rewrite !app_assoc. apply last_snoc.
  - apply lookup_insert_eq.
  - intros k Hk. by rewrite !lookup_insert_ne.
  - by rewrite lookup_insert_ne.
  - by rewrite lookup_insert_ne.
Qed.

Lemma second_pass_overwrites_response_witness :
  ∃ w', iteration Toy.caps [Toy.record1; Toy.record2] Toy.w0 = (Ok tt, w') ∧
  ∃ b qts rts rws w1 rts_ref rws_ref w2 stats logged,
    collator [Toy.record1; Toy.record2] = Ok b ∧
    b !! "input_ids" = Some qts ∧
    get_rewards Toy.caps qts false (set_batch Toy.caps b Toy.w0)
      = (Ok (rts, rws), w1) ∧
    get_rewards Toy.caps qts true w1 = (Ok (rts_ref, rws_ref), w2) ∧
    batch w1 !! "response" = Some (decoded Toy.caps rts) ∧
    batch w2 !! "response" = Some (decoded Toy.caps rts_ref) ∧
    last (trace w') = Some (EvLog stats logged rws) ∧
    logged !! "response" = Some (decoded Toy.caps rts_ref) ∧
    (∀ k, k ≠ "response" →
       batch w1 !! k = b !! k ∧ batch w2 !! k = b !! k ∧
       logged !! k = b !! k) ∧
    batch w2 !! "input_ids" = Some qts ∧
    batch w2 !! "query" = b !! "query".
Proof.
  eexists. split; [vm_compute; reflexivity|].
  eapply (second_pass_overwrites_response Toy.caps
            [Toy.record1; Toy.record2] Toy.w0).
  vm_compute; reflexivity.
Defined.

(** ** Raises propagate *)

Section FailFast.
Context (C : Collaborators).

Implicit Types (w : World C).

Lemma generate_responses_app pre rest acc w rts1 w1 :
  generate_responses C pre acc w = (Ok rts1, w1) →
  generate_responses C (pre ++ rest) acc w = generate_responses C rest rts1 w1.
Proof.
  revert acc w. induction pre as [|query pre IH]; intros acc w H; simpl in *.
  - by inversion H.
  - apply bind_Ok_inv in H as (gen_len & wa & Hs & H).
    apply bind_Ok_inv in H as ([] & wb & Hk & H).
    apply bind_Ok_inv in H as (out & wc & Hg & H).
    rewrite (bind_Ok _ _ _ _ _ _ Hs), (bind_Ok _ _ _ _ _ _ Hk),
      (bind_Ok _ _ _ _ _ _ Hg).
    by apply IH.
Qed.

Lemma get_rewards_raises_Err qts ref_model w e w' :
  get_rewards_raises C qts w e w' →
  get_rewards C qts ref_model w = (Err e, w').
Proof.
  intros [pre query post rts1 w1 gen_len w2 -> Hpre Hs Hg
         |rts w1 queries texts Hgen Hq Htx Hcl ->]; unfold get_rewards.
  - apply bind_Err. rewrite (generate_responses_app _ _ _ _ _ _ Hpre). simpl.
    rewrite (bind_Ok _ _ _ _ _ _ Hs).
    unfold generation_kwargs_setitem at 1. unfold bind at 1.
    by apply bind_Err.
  - rewrite (bind_Ok _ _ _ _ _ _ Hgen).
    unfold batch_setitem at 1. unfold bind at 1.
    unfold batch_getitem at 1, getitem. unfold bind at 1. simpl.
    rewrite lookup_insert_ne, Hq by done.
    unfold batch_getitem at 1, getitem. unfold bind at 1. simpl.
    rewrite lookup_insert_eq.
    unfold lift at 1. unfold bind at 1. fold (decoded C rts). rewrite Htx.
    apply bind_Err. unfold sentiment_pipe. by rewrite Hcl.
Qed.

Lemma body_raises_Err w e w' :
  body_raises C w e w' → loop_body C w = (Err e, w').
Proof.
  intros [qts Hin Hr|qts p w1 Hin H1 Hr
         |qts rts rws w1 rts_ref rws_ref w2 Hin H1 H2 Hs];
    unfold loop_body;
    unfold batch_getitem at 1, getitem; unfold bind at 1; rewrite Hin.
  - apply bind_Err. by apply get_rewards_raises_Err.
  - rewrite (bind_Ok _ _ _ _ _ _ H1). apply bind_Err.
    by apply get_rewards_raises_Err.
  - rewrite (bind_Ok _ _ _ _ _ _ H1), (bind_Ok _ _ _ _ _ _ H2).
    by apply bind_Err.
Qed.

Lemma training_loop_app pre rest w w1 :
  training_loop C pre w = (Ok tt, w1) →
  training_loop C (pre ++ rest) w = training_loop C rest w1.
Proof.
  revert w. induction pre as [|chunk pre IH]; intros w H; simpl in *.
  - by inversion H.
  - apply bind_Ok_inv in H as ([] & wa & Hi & H).
    rewrite (bind_Ok _ _ _ _ _ _ Hi). by apply IH.
Qed.

Lemma iteration_raises chunk b w e w' :
  collator chunk = Ok b →
  body_raises C (set_batch C b w) e w' →
  iteration C chunk w = (Err e, w').
Proof.
  intros Hc Hr. unfold iteration, lift. unfold bind at 1. rewrite Hc.
  unfold bind at 1. by apply body_raises_Err.
Qed.

End FailFast.

(** C7: the loop catches nothing.  When the batches before went through
    and, on the next batch, generation, scoring or the update step
    raises, the loop ends with that exception in the world of the raise:
    whatever batches follow are not touched and nothing is called
    again. *)
Theorem training_loop_fail_fast (C : Collaborators)
    pre chunk post (w w1 : World C) b e w2 :
  training_loop C pre w = (Ok tt, w1) →
  collator chunk = Ok b →
  body_raises C (set_batch C b w1) e w2 →
  training_loop C (pre ++ chunk :: post) w = (Err e, w2).
Proof.
  intros Hpre Hc Hr.
  rewrite (training_loop_app _ _ _ _ _ Hpre). simpl.
  apply bind_Err. by eapply iteration_raises.
Qed.

Lemma training_loop_fail_fast_witness :
  ∃ w2,
    training_loop Toy.caps_diverging
      ([[Toy.record1]] ++ [Toy.record2] :: [[Toy.record1]; [Toy.record2]])
      Toy.w0_diverging
    = (Err (RuntimeError "nan loss"), w2).
Proof.
  eexists.
  eapply (training_loop_fail_fast Toy.caps_diverging
            [[Toy.record1]] [Toy.record2] [[Toy.record1]; [Toy.record2]]
            Toy.w0_diverging).
  - vm_compute; reflexivity.
  - vm_compute; reflexivity.
  - eapply update_raises; vm_compute; reflexivity.
Defined.

(** ** Runs that go through *)

Section Totality.
Context (C : Collaborators).
Hypothesis Hsucceed : collaborators_succeed C.

Implicit Types (w : World C).

Lemma generate_responses_total qts acc w :
  Forall (λ q, ∃ t, q = PTensor t) qts →
  ∃ rts w', generate_responses C qts acc w = (Ok rts, w').
Proof.
  destruct Hsucceed as (Hgen & _).
  intros Hq. revert acc w. induction Hq as [|query qts [t ->] _ IH];
    intros acc w; simpl; [by eexists _, _|].
  destruct (choice_total output_min_length output_max_length (np_random w))
    as [gen_len Hc]; [done|].
  unfold call_sampler at 1. unfold bind at 1.
  fold output_length_sampler in Hc. rewrite Hc.
  unfold generation_kwargs_setitem at 1. unfold bind at 1.
  unfold generate at 1. unfold bind at 1. simpl.
  destruct (Hgen (trainer w) t
              (<["max_new_tokens" := PInt gen_len]> (generation_kwargs w))
              gen_len) as (out & tr' & Hg); [apply lookup_insert_eq|].
  rewrite Hg. apply IH.
Qed.

Lemma get_rewards_total qts ref_model w queries :
  Forall (λ q, ∃ t, q = PTensor t) qts →
  batch w !! "query" = Some queries →
  Forall (λ q, ∃ s, q = PStr s) queries →
  ∃ rts rws w', get_rewards C qts ref_model w = (Ok (rts, rws), w').
Proof.
  intros Hqts Hq Hstr.
  destruct (generate_responses_total qts [] w Hqts) as (rts & w1 & Hgen).
  assert (Hb : batch w1 = batch w).
  { by apply generate_responses_spec in Hgen
      as (? & ? & _ & _ & _ & _ & Hb & _). }
  destruct Hsucceed as (_ & Hcl & _).
  destruct (comprehension_total add_text (zip queries (decoded C rts)))
    as [texts Htx].
  { intros [qv rv] Hin. apply list_elem_of_lookup in Hin as [i Hi].
    apply lookup_zip_with_Some in Hi as (qv' & rv' & [= <- <-] & Hqi & Hri).
    eapply Forall_lookup_1 in Hstr as [s ->]; [|exact Hqi].
    unfold decoded in Hri. rewrite list_lookup_fmap in Hri.
    destruct (rts !! i); [|done]. inversion Hri. simpl. eauto. }
  destruct (comprehension_total (classifier C sent_kwargs) texts)
    as [outs Ho].
  { intros text _. destruct (Hcl text) as (e0 & e1 & rest & ->). eauto. }
  destruct (comprehension_total reward_of outs) as [rws Hr].
  { intros out Hin. apply list_elem_of_lookup in Hin as [i Hi].
    destruct (comprehension_Ok_lookup_inv _ _ _ _ _ Ho Hi) as (text & _ & Hc).
    destruct (Hcl text) as (e0 & e1 & rest & Hc'). rewrite Hc' in Hc.
    inversion Hc; subst out. unfold reward_of. simpl. eauto. }
  exists rts, rws. eexists. unfold get_rewards.
  rewrite (bind_Ok _ _ _ _ _ _ Hgen).
  unfold batch_setitem at 1. unfold bind at 1.
  unfold batch_getitem at 1, getitem. unfold bind at 1. simpl.
  rewrite lookup_insert_ne, Hb, Hq by done.
  unfold batch_getitem at 1, getitem. unfold bind at 1. simpl.
  rewrite lookup_insert_eq.
  unfold lift at 1. unfold bind at 1. fold (decoded C rts). rewrite Htx.
  unfold sentiment_pipe at 1. unfold bind at 1. rewrite Ho.
  unfold lift. unfold bind. rewrite Hr. reflexivity.
Qed.

Lemma loop_body_total w qts queries :
  batch w !! "input_ids" = Some qts →
  Forall (λ q, ∃ t, q = PTensor t) qts →
  batch w !! "query" = Some queries →
  Forall (λ q, ∃ s, q = PStr s) queries →
  ∃ w', loop_body C w = (Ok tt, w').
Proof.
  intros Hin Hqts Hq Hstr.
  destruct (get_rewards_total qts false w queries Hqts Hq Hstr)
    as (rts & rws & w1 & H1).
  destruct (get_rewards_effect _ _ _ _ _ _ _ H1)
    as (? & ? & _ & Hb1 & _).
  destruct (get_rewards_total qts true w1 queries Hqts) as
    (rts_ref & rws_ref & w2 & H2); [|done|].
  { by rewrite Hb1, lookup_insert_ne. }
  destruct Hsucceed as (_ & _ & Hstep & Hlog).
  unfold loop_body. unfold batch_getitem at 1, getitem. unfold bind at 1.
  rewrite Hin, (bind_Ok _ _ _ _ _ _ H1), (bind_Ok _ _ _ _ _ _ H2).
  unfold step at 1. unfold bind at 1. simpl.
  destruct (Hstep (trainer w2) qts rts rts_ref rws rws_ref)
    as (stats & tr & Hs). rewrite Hs.
  unfold log_stats. simpl.
  destruct (Hlog tr stats (batch w2) rws) as (tr' & Hl). rewrite Hl.
  by eexists.
Qed.

End Totality.

Lemma dataloader_single {A} batch_size (d : A) :
  dataloader batch_size [d] = [[d]].
Proof.
  unfold dataloader. simpl.
  destruct (Pos2Nat.is_succ batch_size) as [n ->]. simpl.
  by rewrite take_nil.
Qed.

Lemma collator_single {V} (d : gmap string V) k v :
  d !! k = Some v →
  ∃ b, collator [d] = Ok b ∧ b !! k = Some [v].
Proof.
  intros Hk.
  destruct (collator_columns [d] d) as (b & Hc & _ & Hcols); [done| |].
  { intros d' Hd. by apply list_elem_of_singleton in Hd as ->. }
  destruct (Hcols k) as (col & Hb & Hlen & Hcol).
  { apply elem_of_dom. eauto. }
  destruct (Hcol 0%nat d eq_refl) as (v' & Hv' & Hc0).
  rewrite Hk in Hv'. inversion Hv'; subst v'.
  exists b. split; [done|]. rewrite Hb. f_equal.
  destruct col as [|x [|y col]]; simpl in *; try done.
  by inversion Hc0.
Qed.

(** C8: a dataset of exactly one record, with a query tensor and a
    query text, yields one batch of one item whatever the configured
    batch size; the collator builds its mapping, and when no
    collaborator raises the loop runs one full iteration on it (both
    generation passes, scoring, the update step, logging) and ends
    without an exception. *)
Theorem single_item_dataset_completes (C : Collaborators)
    batch_size d t q (w : World C) :
  collaborators_succeed C →
  d !! "input_ids" = Some (PTensor t) →
  d !! "query" = Some (PStr q) →
  dataloader batch_size [d] = [[d]] ∧
  ∃ b w',
    collator [d] = Ok b ∧
    b !! "input_ids" = Some [PTensor t] ∧
    b !! "query" = Some [PStr q] ∧
    run_training C batch_size [d] w = (Ok tt, w') ∧
    ∃ evs rts rws rts_ref rws_ref stats logged,
      trace w' = trace w ++ evs
        ++ [EvStep [PTensor t] rts rts_ref rws rws_ref;
            EvLog stats logged rws] ∧
      Forall (λ ev, is_update ev = false) evs ∧
      length rts = 1%nat ∧ length rws = 1%nat ∧
      length rts_ref = 1%nat ∧ length rws_ref = 1%nat.
Proof.
  intros Hsucceed Hin Hq. split; [apply dataloader_single|].
  destruct (collator_single d _ _ Hin) as (b & Hc & Hbin).
  destruct (collator_single d _ _ Hq) as (b' & Hc' & Hbq).
  rewrite Hc in Hc'. inversion Hc'; subst b'.
  destruct (loop_body_total C Hsucceed (set_batch C b w)
              [PTensor t] [PStr q]) as [w' Hbody]; try done.
  { repeat constructor. eauto. }
  { repeat constructor. eauto. }
  assert (Hit : iteration C [d] w = (Ok tt, w')).
  { unfold iteration, lift. unfold bind at 1. rewrite Hc.
    unfold bind at 1. exact Hbody. }
  exists b, w'. split_and!; try done.
  - unfold run_training. rewrite dataloader_single. simpl.
    by rewrite (bind_Ok _ _ _ _ _ _ Hit).
  - destruct (iteration_lists_lengths C _ _ _ Hit)
      as (b1 & qts & rts & rws & w1 & rts_ref & rws_ref & w2
          & Hc1 & Hin1 & H1 & H2 & Hlq & Hl1 & Hl2 & Hl3 & Hl4).
    destruct (iteration_stages C _ _ _ Hit)
      as (b2 & qts2 & rts' & rws' & w1' & rts_ref' & rws_ref' & w2'
          & stats & tr & evs & Hc2 & Hin2 & H1' & H2' & _ & _ & _ & _
          & Ht & Hf).
    rewrite Hc in Hc1, Hc2. inversion Hc1; subst b1.
    inversion Hc2; subst b2. rewrite Hbin in Hin1, Hin2.
    inversion Hin1; subst qts. inversion Hin2; subst qts2.
    rewrite H1 in H1'. inversion H1'; subst rts' rws' w1'.
    rewrite H2 in H2'. inversion H2'; subst rts_ref' rws_ref' w2'.
    exists evs, rts, rws, rts_ref, rws_ref, stats, (batch w2).
    by split_and!.
Qed.

Lemma single_item_dataset_completes_witness :
  dataloader 128 [Toy.record1] = [[Toy.record1]] ∧
  ∃ b w',
    collator [Toy.record1] = Ok b ∧
    b !! "input_ids" = Some [PTensor [40; 6151]] ∧
    b !! "query" = Some [PStr "I loved"] ∧
    run_training Toy.caps 128 [Toy.record1] Toy.w0 = (Ok tt, w') ∧
    ∃ evs rts rws rts_ref rws_ref stats logged,
      trace w' = trace Toy.w0 ++ evs
        ++ [EvStep [PTensor [40; 6151]] rts rts_ref rws rws_ref;
            EvLog stats logged rws] ∧
      Forall (λ ev, is_update ev = false) evs ∧
      length rts = 1%nat ∧ length rws = 1%nat ∧
      length rts_ref = 1%nat ∧ length rws_ref = 1%nat.
Proof.
  apply (single_item_dataset_completes Toy.caps 128 Toy.record1
           [40; 6151] "I loved" Toy.w0 ToyFacts.caps_succeed).
  - vm_compute; reflexivity.
  - vm_compute; reflexivity.
Defined.

(** * Further properties of the script *)

(** ** The collator: errors and round trip *)

Lemma comprehension_Err_elem {A B} (f : A → result B) l e :
  comprehension f l = Err e → ∃ x, x ∈ l ∧ f x = Err e.
Proof.
  induction l as [|a l IH]; simpl; [done|].
  destruct (f a) as [y|e'] eqn:Hfa; simpl.
  - destruct (comprehension f l) as [ys|e'']; simpl; [done|].
    intros [= ->]. destruct IH as (x & Hin & Hx); [done|].
    exists x. split; [by right|done].
  - intros [= ->]. exists a. split; [by left|done].
Qed.

Lemma map_to_list_keys {V} (d : gmap string V) k :
  k ∈ map fst (map_to_list d) ↔ is_Some (d !! k).
Proof.
  change (map fst (map_to_list d)) with ((map_to_list d).*1).
  rewrite list_elem_of_fmap. split.
  - intros ([k' v] & -> & Hin). apply elem_of_map_to_list in Hin. eauto.
  - intros [v Hv]. exists (k, v). split; [done|].
    by apply elem_of_map_to_list.
Qed.

(** X1: the collator raises IndexError exactly on the empty list; on a
    non-empty list its only exception is the KeyError of a key of the
    first record that some record of the list lacks. *)
Theorem collator_raises {V} (data : list (gmap string V)) e :
  collator data = Err e →
  (data = [] ∧ e = IndexError) ∨
  (∃ d0 k d, data !! 0%nat = Some d0 ∧ is_Some (d0 !! k) ∧
     d ∈ data ∧ d !! k = None ∧ e = KeyError k).
Proof.
  unfold collator. destruct data as [|d0 rest]; [intros [= <-]; by left|].
  set (data := d0 :: rest). intros H. right.
  destruct (comprehension _ (map fst (map_to_list d0))) as [items|e'] eqn:Hit;
    simpl in H; [done|]. inversion H; subst e'.
  apply comprehension_Err_elem in Hit as (k & Hk & Hf).
  destruct (comprehension (getitem k) data) as [col|e'] eqn:Hcol;
    simpl in Hf; [done|]. inversion Hf; subst e'.
  apply comprehension_Err_elem in Hcol as (d & Hd & Hg).
  unfold getitem in Hg. destruct (d !! k) eqn:Hdk; [done|].
  inversion Hg; subst e. exists d0, k, d.
  split_and!; try done. by apply map_to_list_keys.
Qed.

Lemma collator_raises_witness :
  ([Toy.record1; Samples.record_no_ids] = [] ∧ KeyError "input_ids" = IndexError) ∨
  (∃ d0 k d, [Toy.record1; Samples.record_no_ids] !! 0%nat = Some d0 ∧
     is_Some (d0 !! k) ∧
     d ∈ [Toy.record1; Samples.record_no_ids] ∧ d !! k = None ∧
     KeyError "input_ids" = KeyError k).
Proof.
  apply (collator_raises [Toy.record1; Samples.record_no_ids]).
  vm_compute; reflexivity.
Defined.

(** X2: the collator returns a batch exactly when the list is non-empty
    and every record has the keys of the first one; further keys of
    later records do not make it raise. *)
Theorem collator_Ok_iff {V} (data : list (gmap string V)) :
  (∃ b, collator data = Ok b) ↔
  (∃ d0, data !! 0%nat = Some d0 ∧ ∀ d, d ∈ data → dom d0 ⊆ dom d).
Proof.
  split.
  - intros [b Hc]. destruct data as [|d0 rest] eqn:Hdata; [done|].
    exists d0. split; [done|]. intros d Hd k Hk. rewrite <- Hdata in *.
    destruct (decide (k ∈ dom d)) as [|Hn]; [done|exfalso].
    apply not_elem_of_dom in Hn. apply elem_of_dom in Hk as [v Hv].
    assert (Hkb : is_Some (b !! k)).
    { destruct (collator_columns data d0) as (b' & Hc' & Hdom & _).
      - by rewrite Hdata.
      - (* the columns of a batch that exists were all read *)
        intros d' Hd' k' Hk'. apply elem_of_dom.
        unfold collator in Hc. rewrite Hdata in Hc. rewrite <- Hdata in Hc.
        destruct (comprehension _ (map fst (map_to_list d0)))
          as [items|] eqn:Hit; simpl in Hc; [|done].
        apply elem_of_dom in Hk'. apply map_to_list_keys in Hk'.
        apply list_elem_of_lookup in Hk' as [j Hj].
        destruct (comprehension_Ok_lookup _ _ _ _ _ Hit Hj) as (it & _ & Hf).
        destruct (comprehension (getitem k') data) as [col|] eqn:Hcol;
          simpl in Hf; [|done].
        apply list_elem_of_lookup in Hd' as [i Hi].
        destruct (comprehension_Ok_lookup _ _ _ _ _ Hcol Hi) as (v' & _ & Hg).
        unfold getitem in Hg. destruct (d' !! k'); [eauto|done].
      - rewrite Hc in Hc'. inversion Hc'; subst b'.
        apply elem_of_dom. rewrite Hdom. apply elem_of_dom. eauto. }
    destruct Hkb as [col Hcol].
    assert (Hc2 := collator_Ok_lookup _ _ _ _ Hc Hcol).
    apply list_elem_of_lookup in Hd as [i Hi].
    destruct (comprehension_Ok_lookup _ _ _ _ _ Hc2 Hi) as (v' & _ & Hg).
    unfold getitem in Hg. by rewrite Hn in Hg.
  - intros (d0 & H0 & Hkeys).
    destruct (collator_columns data d0 H0 Hkeys) as (b & Hc & _). eauto.
Qed.

(** X3: when all records have the same keys, the batch determines the
    records: record [i] is read back by taking element [i] of every
    column. *)
Theorem collator_round_trip {V} (data : list (gmap string V)) d0 b :
  data !! 0%nat = Some d0 →
  (∀ d, d ∈ data → dom d = dom d0) →
  collator data = Ok b →
  ∀ i d, data !! i = Some d → d = omap (λ col : list V, col !! i) b.
Proof.
  intros H0 Hdom Hc i d Hi.
  destruct (collator_columns data d0 H0) as (b' & Hc' & Hdb & Hcols).
  { intros d' Hd'. by rewrite (Hdom d' Hd'). }
  rewrite Hc in Hc'. inversion Hc'; subst b'.
  apply map_eq. intros k. rewrite lookup_omap.
  destruct (decide (k ∈ dom d0)) as [Hk|Hk].
  - destruct (Hcols k Hk) as (col & Hb & _ & Hcol).
    destruct (Hcol i d Hi) as (v & Hv & Hci). by rewrite Hb, Hv.
  - assert (Hbk : b !! k = None) by (apply not_elem_of_dom; by rewrite Hdb).
    rewrite Hbk. simpl. apply not_elem_of_dom.
    rewrite (Hdom d); [done|]. eapply list_elem_of_lookup_2; eauto.
Qed.

Lemma collator_round_trip_witness :
  ∃ b, collator [Toy.record1; Toy.record2] = Ok b ∧
    ∀ i d, [Toy.record1; Toy.record2] !! i = Some d →
      d = omap (λ col : list pyval, col !! i) b.
Proof.
  eexists. split; [vm_compute; reflexivity|].
  apply (collator_round_trip [Toy.record1; Toy.record2] Toy.record1).
  - reflexivity.
  - intros d Hd. apply elem_of_cons in Hd as [->|Hd]; [done|].
    apply list_elem_of_singleton in Hd as ->. vm_compute. done.
  - vm_compute; reflexivity.
Defined.

(** ** [get_rewards]: lengths, draws and side effects *)

Lemma slice_from_last_min {A} (n : Z) (l : list A) :
  0 < n →
  length (slice_from (- n) l) = Nat.min (Z.to_nat n) (length l).
Proof.
  intros Hpos. unfold slice_from.
  destruct (Z.ltb_spec (- n) 0) as [_|Hge]; [|lia].
  rewrite length_drop. lia.
Qed.

(** X4: whatever generation returns, the response tensor kept for a
    query is the tail of the returned sequence: it has
    [min(L, len(output))] tokens, and when generation returns no more
    than [L] tokens it is the whole returned sequence. *)
Theorem responses_are_tails (C : Collaborators)
    query_tensors ref_model (w : World C) rts rws w' :
  get_rewards C query_tensors ref_model w = (Ok (rts, rws), w') →
  ∀ i query, query_tensors !! i = Some query →
    ∃ q L kwargs out tr tr' response,
      query = PTensor q ∧
      kwargs !! "max_new_tokens" = Some (PInt L) ∧
      ppo_generate C tr q kwargs = (Ok out, tr') ∧
      rts !! i = Some response ∧
      response = slice_from (- L) out ∧
      length response = Nat.min (Z.to_nat L) (length out) ∧
      (Z.of_nat (length out) ≤ L → response = out).
Proof.
  intros H i query Hq.
  apply get_rewards_spec in H as (w1 & ? & ? & ? & Hgen & _).
  apply generate_responses_spec in Hgen
    as (new & evs & -> & _ & _ & _ & _ & _ & _ & Hall).
  destruct (Hall i query Hq)
    as (q & L & out & tr & tr' & -> & HL & _ & Hg & Hnew).
  assert (HLr : 4 ≤ L < 16) by (eapply choice_range, HL).
  exists q, L, (<[gen_key := PInt L]> (generation_kwargs w)), out, tr, tr',
    (slice_from (- L) out).
  split_and!; try done.
  - apply lookup_insert_eq.
  - apply slice_from_last_min. lia.
  - intros Hle. apply slice_from_last_short; lia.
Qed.

Lemma responses_are_tails_witness :
  ∃ rts rws w',
    get_rewards Samples.caps_short Toy.queries2 false Samples.w2_short
      = (Ok (rts, rws), w') ∧
    ∀ i query, Toy.queries2 !! i = Some query →
      ∃ q L kwargs out tr tr' response,
        query = PTensor q ∧
        kwargs !! "max_new_tokens" = Some (PInt L) ∧
        ppo_generate Samples.caps_short tr q kwargs = (Ok out, tr') ∧
        rts !! i = Some response ∧
        response = slice_from (- L) out ∧
        length response = Nat.min (Z.to_nat L) (length out) ∧
        (Z.of_nat (length out) ≤ L → response = out).
Proof.
  eexists _, _, _. split; [vm_compute; reflexivity|].
  eapply (responses_are_tails Samples.caps_short Toy.queries2 false
            Samples.w2_short).
  vm_compute; reflexivity.
Defined.

(** X5: a call of [get_rewards] takes one draw from NumPy's generator
    per query tensor and none elsewhere: afterwards the generator is
    [len(query_tensors)] draws further. *)
Theorem get_rewards_draws (C : Collaborators)
    query_tensors ref_model (w : World C) rts rws w' :
  get_rewards C query_tensors ref_model w = (Ok (rts, rws), w') →
  np_random w' =
    {| entropy := entropy (np_random w);
       cursor := (cursor (np_random w) + length query_tensors)%nat |}.
Proof.
  intros H.
  apply get_rewards_spec in H
    as (w1 & ? & ? & ? & Hgen & _ & _ & _ & _ & _ & _ & _ & Hr & _).
  apply generate_responses_spec in Hgen
    as (new & evs & _ & _ & _ & _ & _ & Hr1 & _).
  by rewrite Hr, Hr1.
Qed.

Lemma get_rewards_draws_witness :
  ∃ rts rws w',
    get_rewards Toy.caps Toy.queries2 false Toy.w2 = (Ok (rts, rws), w') ∧
    np_random w' =
      {| entropy := entropy (np_random Toy.w2);
         cursor := (cursor (np_random Toy.w2) + length Toy.queries2)%nat |}.
Proof.
  eexists _, _, _. split; [vm_compute; reflexivity|].
  eapply (get_rewards_draws Toy.caps Toy.queries2 false Toy.w2).
  vm_compute; reflexivity.
Defined.

Lemma generate_responses_kwargs (C : Collaborators)
    pre query acc (w : World C) rts w' :
  generate_responses C (pre ++ [query]) acc w = (Ok rts, w') →
  ∃ L, choice_at output_length_sampler (np_random w) (length pre) = Some L ∧
    generation_kwargs w' = <[gen_key := PInt L]> (generation_kwargs w).
Proof.
  revert acc w. induction pre as [|q0 pre IH]; intros acc w H; simpl in H.
  - apply bind_Ok_inv in H as (gen_len & w1 & Hs & H).
    apply bind_Ok_inv in H as ([] & w2 & Hk & H).
    apply bind_Ok_inv in H as (out & w3 & Hg & H).
    unfold call_sampler in Hs.
    destruct (choice _ (np_random w)) as [v|] eqn:Hc; [|done].
    inversion Hs; subst v w1; clear Hs.
    inversion Hk; subst w2; clear Hk.
    apply generate_Ok_inv in Hg as (q & _ & _ & _ & Hk3 & _).
    inversion H; subst. exists gen_len. rewrite choice_at_0. by split.
  - apply bind_Ok_inv in H as (gen_len & w1 & Hs & H).
    apply bind_Ok_inv in H as ([] & w2 & Hk & H).
    apply bind_Ok_inv in H as (out & w3 & Hg & H).
    unfold call_sampler in Hs.
    destruct (choice _ (np_random w)) as [v|] eqn:Hc; [|done].
    inversion Hs; subst v w1; clear Hs.
    inversion Hk; subst w2; clear Hk.
    apply generate_Ok_inv in Hg as (q & _ & _ & Hr3 & Hk3 & _).
    apply IH in H as (L & HL & Hkw). simpl in *.
    rewrite Hr3, choice_at_advance in HL.
    rewrite Hk3, insert_insert_eq in Hkw. eauto.
Qed.

(** X6: the only key of the module-level [generation_kwargs] that
    [get_rewards] writes is [max_new_tokens]; after a call on a
    non-empty batch it holds the length drawn for the last query, and
    it stays there for whatever reads the dict next. *)
Theorem get_rewards_leaves_last_length (C : Collaborators)
    pre query ref_model (w : World C) rts rws w' :
  get_rewards C (pre ++ [query]) ref_model w = (Ok (rts, rws), w') →
  ∃ L, choice_at output_length_sampler (np_random w) (length pre) = Some L ∧
    generation_kwargs w' = <["max_new_tokens" := PInt L]> (generation_kwargs w) ∧
    ∀ k, k ≠ "max_new_tokens" →
      generation_kwargs w' !! k = generation_kwargs w !! k.
Proof.
  intros H.
  apply get_rewards_spec in H
    as (w1 & ? & ? & ? & Hgen & _ & _ & _ & _ & _ & _ & _ & _ & Hk).
  apply generate_responses_kwargs in Hgen as (L & HL & Hkw).
  exists L. rewrite Hk, Hkw. split_and!; try done.
  intros k Hne. by rewrite lookup_insert_ne.
Qed.

Lemma get_rewards_leaves_last_length_witness :
  ∃ rts rws w',
    get_rewards Toy.caps ([PTensor [40; 6151]] ++ [PTensor [1212; 373]])
      false Toy.w2 = (Ok (rts, rws), w') ∧
    ∃ L, choice_at output_length_sampler (np_random Toy.w2)
           (length [PTensor [40; 6151]]) = Some L ∧
      generation_kwargs w'
        = <["max_new_tokens" := PInt L]> (generation_kwargs Toy.w2) ∧
      ∀ k, k ≠ "max_new_tokens" →
        generation_kwargs w' !! k = generation_kwargs Toy.w2 !! k.
Proof.
  eexists _, _, _. split; [vm_compute; reflexivity|].
  eapply (get_rewards_leaves_last_length Toy.caps
            [PTensor [40; 6151]] (PTensor [1212; 373]) false Toy.w2).
  vm_compute; reflexivity.
Defined.

(** ** [get_rewards]: edge cases and errors *)

(** X7: on a batch without query tensors [get_rewards] returns two
    empty lists; it calls no generation and takes no draw, but it still
    calls the scoring pipeline once, on an empty list of texts, and it
    sets [batch["response"]] to the empty list. *)
Theorem get_rewards_empty_batch (C : Collaborators)
    ref_model (w : World C) queries :
  batch w !! "query" = Some queries →
  get_rewards C [] ref_model w
    = (Ok ([], []),
       emit C (EvPipe [] sent_kwargs)
         (set_batch C (<["response" := []]> (batch w)) w)).
Proof.
  intros Hq. unfold get_rewards. simpl.
  unfold ret at 1. unfold bind at 1.
  unfold batch_setitem at 1. unfold bind at 1.
  unfold batch_getitem at 1, getitem. unfold bind at 1. simpl.
  rewrite lookup_insert_ne, Hq by done.
  unfold batch_getitem at 1, getitem. unfold bind at 1. simpl.
  rewrite lookup_insert_eq.
  replace (zip queries []) with (@nil (pyval * pyval))
    by (by destruct queries).
  reflexivity.
Qed.

Lemma get_rewards_empty_batch_witness :
  get_rewards Toy.caps [] false Toy.w2
    = (Ok ([], []),
       emit Toy.caps (EvPipe [] sent_kwargs)
         (set_batch Toy.caps (<["response" := []]> (batch Toy.w2)) Toy.w2)).
Proof.
  apply (get_rewards_empty_batch Toy.caps false Toy.w2
           [PStr "I loved"; PStr "This was"]).
  vm_compute; reflexivity.
Defined.

(** X8: when the batch has no ["query"] key, [get_rewards] raises
    KeyError only after generation has run for every query tensor and
    [batch["response"]] has been assigned: those effects stay, and the
    scoring pipeline is not called. *)
Theorem get_rewards_missing_query (C : Collaborators)
    query_tensors ref_model (w : World C) rts w1 :
  batch w !! "query" = None →
  generate_responses C query_tensors [] w = (Ok rts, w1) →
  ∃ evs,
    get_rewards C query_tensors ref_model w
      = (Err (KeyError "query"),
         set_batch C (<["response" := decoded C rts]> (batch w)) w1) ∧
    trace w1 = trace w ++ evs ∧
    length evs = length query_tensors ∧
    Forall (λ ev, ∃ q kwargs, ev = EvGenerate q kwargs) evs.
Proof.
  intros Hq Hgen.
  apply generate_responses_spec in Hgen as Hspec.
  destruct Hspec as (new & evs & _ & _ & He & Ht & Hb & _ & _ & Hall).
  exists evs. split_and!; try done.
  - unfold get_rewards. rewrite (bind_Ok _ _ _ _ _ _ Hgen).
    unfold batch_setitem at 1. unfold bind at 1.
    unfold batch_getitem at 1, getitem. unfold bind at 1. simpl.
    by rewrite lookup_insert_ne, Hb, Hq.
  - apply Forall_forall. intros ev Hin.
    apply list_elem_of_lookup in Hin as [i Hi].
    apply lookup_lt_Some in Hi as Hlt. rewrite He in Hlt.
    destruct (lookup_lt_is_Some_2 query_tensors i Hlt) as [query Hq'].
    destruct (Hall i query Hq') as (q & L & out & tr & tr' & _ & _ & Hev & _).
    rewrite Hi in Hev. inversion Hev. eauto.
Qed.

Lemma get_rewards_missing_query_witness :
  ∃ rts w1,
    generate_responses Toy.caps Toy.queries2 [] Samples.w_no_query
      = (Ok rts, w1) ∧
    ∃ evs,
      get_rewards Toy.caps Toy.queries2 false Samples.w_no_query
        = (Err (KeyError "query"),
           set_batch Toy.caps
             (<["response" := decoded Toy.caps rts]>
                (batch Samples.w_no_query)) w1) ∧
      trace w1 = trace Samples.w_no_query ++ evs ∧
      length evs = length Toy.queries2 ∧
      Forall (λ ev, ∃ q kwargs, ev = EvGenerate q kwargs) evs.
Proof.
  eexists _, _. split; [vm_compute; reflexivity|].
  eapply (get_rewards_missing_query Toy.caps Toy.queries2 false
            Samples.w_no_query).
  - vm_compute; reflexivity.
  - vm_compute; reflexivity.
Defined.

(** X9: when the records of a batch carry no ["input_ids"], the
    iteration raises KeyError on its first statement: the batch has been
    collated and bound, but no collaborator has been called and no draw
    taken. *)
Theorem iteration_missing_input_ids (C : Collaborators)
    chunk d0 b (w : World C) :
  chunk !! 0%nat = Some d0 →
  d0 !! "input_ids" = None →
  collator chunk = Ok b →
  iteration C chunk w = (Err (KeyError "input_ids"), set_batch C b w).
Proof.
  intros H0 Hd Hc.
  assert (Hb : b !! "input_ids" = None).
  { destruct (b !! "input_ids") as [col|] eqn:Hcol; [|done].
    assert (Hcc := collator_Ok_lookup _ _ _ _ Hc Hcol).
    destruct (comprehension_Ok_lookup _ _ _ _ _ Hcc H0) as (v & _ & Hg).
    unfold getitem in Hg. by rewrite Hd in Hg. }
  unfold iteration, lift. unfold bind at 1. rewrite Hc. unfold bind at 1.
  unfold loop_body. unfold batch_getitem at 1, getitem. unfold bind at 1.
  simpl. by rewrite Hb.
Qed.

Lemma iteration_missing_input_ids_witness :
  ∃ b, collator [Samples.record_no_ids] = Ok b ∧
    iteration Toy.caps [Samples.record_no_ids] Toy.w0
      = (Err (KeyError "input_ids"), set_batch Toy.caps b Toy.w0).
Proof.
  eexists. split; [vm_compute; reflexivity|].
  apply (iteration_missing_input_ids Toy.caps [Samples.record_no_ids]
           Samples.record_no_ids).
  - reflexivity.
  - vm_compute; reflexivity.
  - vm_compute; reflexivity.
Defined.

Lemma reward_of_short_output outs :
  Exists (λ out : list entry, (length out < 2)%nat) outs →
  comprehension reward_of outs = Err IndexError.
Proof.
  induction 1 as [out outs Hlen|out outs _ IH]; simpl.
  - unfold reward_of at 1.
    destruct out as [|e0 [|e1 out]]; simpl in *; try done. lia.
  - unfold reward_of at 1. destruct (out !! 1%nat); simpl; [|done].
    by rewrite IH.
Qed.

(** X10: when the classifier returns fewer than two entries for some
    text, [get_rewards] raises IndexError; this happens after the
    scoring call, with all generation done and [batch["response"]]
    assigned. *)
Theorem get_rewards_single_entry_output (C : Collaborators)
    query_tensors ref_model (w : World C) rts w1 queries texts outs :
  generate_responses C query_tensors [] w = (Ok rts, w1) →
  batch w !! "query" = Some queries →
  comprehension add_text (zip queries (decoded C rts)) = Ok texts →
  comprehension (classifier C sent_kwargs) texts = Ok outs →
  Exists (λ out, (length out < 2)%nat) outs →
  get_rewards C query_tensors ref_model w
    = (Err IndexError,
       emit C (EvPipe texts sent_kwargs)
         (set_batch C (<["response" := decoded C rts]> (batch w)) w1)).
Proof.
  intros Hgen Hq Htx Ho Hshort.
  assert (Hb : batch w1 = batch w).
  { by apply generate_responses_spec in Hgen
      as (? & ? & _ & _ & _ & _ & Hb & _). }
  unfold get_rewards. rewrite (bind_Ok _ _ _ _ _ _ Hgen).
  unfold batch_setitem at 1. unfold bind at 1.
  unfold batch_getitem at 1, getitem. unfold bind at 1. simpl.
  rewrite lookup_insert_ne, Hb, Hq by done.
  unfold batch_getitem at 1, getitem. unfold bind at 1. simpl.
  rewrite lookup_insert_eq.
  unfold lift at 1. unfold bind at 1. fold (decoded C rts). rewrite Htx.
  unfold sentiment_pipe at 1. unfold bind at 1. rewrite Ho.
  unfold lift. unfold bind. by rewrite (reward_of_short_output _ Hshort).
Qed.

Lemma get_rewards_single_entry_output_witness :
  ∃ rts w1 texts,
    generate_responses Samples.caps_top1 Toy.queries2 [] Samples.w2_top1
      = (Ok rts, w1) ∧
    get_rewards Samples.caps_top1 Toy.queries2 false Samples.w2_top1
      = (Err IndexError,
         emit Samples.caps_top1 (EvPipe texts sent_kwargs)
           (set_batch Samples.caps_top1
              (<["response" := decoded Samples.caps_top1 rts]>
                 (batch Samples.w2_top1)) w1)).
Proof.
  eexists _, _, _. split; [vm_compute; reflexivity|].
  eapply (get_rewards_single_entry_output Samples.caps_top1 Toy.queries2 false
            Samples.w2_top1).
  - vm_compute; reflexivity.
  - vm_compute; reflexivity.
  - vm_compute; reflexivity.
  - vm_compute; reflexivity.
  - apply Exists_cons_hd. simpl. lia.
Defined.

(** X11: [zip] stops at the shorter list: the number of rewards is the
    smaller of the number of query texts and the number of query
    tensors, while there is one response tensor per query tensor; with
    fewer query texts than tensors the two returned lists differ in
    length and nothing is raised. *)
Theorem rewards_truncated_by_zip (C : Collaborators)
    query_tensors ref_model (w : World C) rts rws w' queries :
  get_rewards C query_tensors ref_model w = (Ok (rts, rws), w') →
  batch w !! "query" = Some queries →
  length rts = length query_tensors ∧
  length rws = Nat.min (length queries) (length query_tensors).
Proof.
  intros H Hq.
  destruct (get_rewards_effect _ _ _ _ _ _ _ H)
    as (queries' & evs & Hq' & _ & Hl & Hr & _).
  rewrite Hq in Hq'. by inversion Hq'; subst.
Qed.

Lemma rewards_truncated_by_zip_witness :
  ∃ rts rws w',
    get_rewards Toy.caps Toy.queries2 false Samples.w_one_query
      = (Ok (rts, rws), w') ∧
    length rts = length Toy.queries2 ∧
    length rws = Nat.min (length [PStr "I loved"]) (length Toy.queries2).
Proof.
  eexists _, _, _. split; [vm_compute; reflexivity|].
  eapply (rewards_truncated_by_zip Toy.caps Toy.queries2 false
            Samples.w_one_query).
  - vm_compute; reflexivity.
  - vm_compute; reflexivity.
Defined.

(** ** The calls of an iteration and of the whole loop *)

Section Calls.
Context (C : Collaborators).

Implicit Types (w : World C).

Lemma step_frame qts rts rts_ref rws rws_ref w r w' :
  step C qts rts rts_ref rws rws_ref w = (r, w') →
  np_random w' = np_random w ∧ generation_kwargs w' = generation_kwargs w.
Proof.
  unfold step. simpl. destruct (ppo_step C _ _ _ _ _ _) as [r' t'].
  by intros [= _ <-].
Qed.

Lemma log_stats_frame stats rws w r w' :
  log_stats C stats rws w = (r, w') →
  np_random w' = np_random w ∧ generation_kwargs w' = generation_kwargs w.
Proof.
  unfold log_stats. simpl. destruct (ppo_log_stats C _ _ _ _) as [r' t'].
  by intros [= _ <-].
Qed.

Lemma generate_frame query w r w' :
  generate C query w = (r, w') →
  np_random w' = np_random w ∧ generation_kwargs w' = generation_kwargs w.
Proof.
  unfold generate. destruct (as_tensor query); simpl.
  - destruct (ppo_generate C _ _ _) as [r' t']. by intros [= _ <-].
  - by intros [= _ <-].
Qed.

(** The calls of one successful [get_rewards]: one generation per query
    tensor, each with the draw of its turn, then one scoring call. *)
Lemma get_rewards_calls qts ref_model w rts rws w' :
  get_rewards C qts ref_model w = (Ok (rts, rws), w') →
  ∃ gens texts,
    trace w' = trace w ++ gens ++ [EvPipe texts sent_kwargs] ∧
    length gens = length qts ∧
    np_random w' =
      {| entropy := entropy (np_random w);
         cursor := (cursor (np_random w) + length qts)%nat |} ∧
    ∀ i query, qts !! i = Some query →
      ∃ q L, query = PTensor q ∧
        choice_at output_length_sampler (np_random w) i = Some L ∧
        gens !! i = Some (EvGenerate q
                     (<[gen_key := PInt L]> (generation_kwargs w))).
Proof.
  intros H.
  apply get_rewards_spec in H
    as (w1 & queries & texts & outs & Hgen & _ & _ & _ & _ & _ & Ht & _ & Hr & _).
  apply generate_responses_spec in Hgen
    as (new & evs & _ & _ & He & Ht1 & _ & Hr1 & _ & Hall).
  exists evs, texts. split_and!; try done.
  - by rewrite Ht, Ht1, <- app_assoc.
  - by rewrite Hr, Hr1.
  - intros i query Hq.
    destruct (Hall i query Hq) as (q & L & out & tr & tr' & -> & HL & Hev & _).
    eauto.
Qed.

Lemma all_generate_calls (qts : list pyval) (gens : list (Event C)) :
  length gens = length qts →
  (∀ i query, qts !! i = Some query →
     ∃ q kw, gens !! i = Some (EvGenerate q kw)) →
  Forall (λ ev, is_generate ev = true) gens.
Proof.
  intros Hlen Hall. apply Forall_lookup. intros i ev Hi.
  apply lookup_lt_Some in Hi as Hlt. rewrite Hlen in Hlt.
  destruct (lookup_lt_is_Some_2 qts i Hlt) as [query Hq].
  destruct (Hall i query Hq) as (q & kw & Hev).
  rewrite Hi in Hev. by inversion Hev.
Qed.

(** The calls of one successful iteration. *)
Lemma iteration_calls chunk w w' :
  iteration C chunk w = (Ok tt, w') →
  ∃ gens1 texts1 gens2 texts2 ev_step ev_log,
    trace w' = trace w ++ gens1 ++ [EvPipe texts1 sent_kwargs]
      ++ gens2 ++ [EvPipe texts2 sent_kwargs] ++ [ev_step; ev_log] ∧
    length gens1 = length chunk ∧ length gens2 = length chunk ∧
    Forall (λ ev, is_generate ev = true) gens1 ∧
    Forall (λ ev, is_generate ev = true) gens2 ∧
    is_step ev_step = true ∧ is_log ev_log = true ∧
    cursor (np_random w')
      = (cursor (np_random w) + 2 * length chunk)%nat ∧
    ∀ i, (i < length chunk)%nat →
      ∃ q L1 L2 kw1 kw2,
        choice_at output_length_sampler (np_random w) i = Some L1 ∧
        choice_at output_length_sampler (np_random w) (length chunk + i)
          = Some L2 ∧
        gens1 !! i = Some (EvGenerate q kw1) ∧
        kw1 !! gen_key = Some (PInt L1) ∧
        gens2 !! i = Some (EvGenerate q kw2) ∧
        kw2 !! gen_key = Some (PInt L2).
Proof.
  intros H. apply iteration_Ok_inv in H as (b & Hc & H).
  apply loop_body_Ok_inv in H
    as (qts & rts & rws & w1 & rts_ref & rws_ref & w2 & stats & w3
        & Hin & H1 & H2 & Hs & Hl).
  simpl in Hin.
  assert (Hlen : length qts = length chunk)
    by (eapply collator_Ok_length; eauto).
  apply get_rewards_calls in H1 as (gens1 & texts1 & Ht1 & Hl1 & Hr1 & Hall1).
  apply get_rewards_calls in H2 as (gens2 & texts2 & Ht2 & Hl2 & Hr2 & Hall2).
  apply step_frame in Hs as Hsf. destruct Hsf as [Hr3 _].
  apply step_Ok_inv in Hs as (_ & Hb3 & Ht3).
  apply log_stats_frame in Hl as Hlf. destruct Hlf as [Hr4 _].
  apply log_stats_Ok_inv in Hl as (_ & Ht4).
  simpl in Ht1, Hr1, Hall1.
  exists gens1, texts1, gens2, texts2,
    (EvStep qts rts rts_ref rws rws_ref), (EvLog stats (batch w3) rws).
  split_and!; try done; try congruence.
  - rewrite Ht4, Ht3, Ht2, Ht1. by rewrite <- !app_assoc.
  - eapply all_generate_calls; [exact Hl1|].
    intros i query Hq. destruct (Hall1 i query Hq) as (q & L & _ & _ & Hev).
    eauto.
  - eapply all_generate_calls; [exact Hl2|].
    intros i query Hq. destruct (Hall2 i query Hq) as (q & L & _ & _ & Hev).
    eauto.
  - rewrite Hr4, Hr3, Hr2, Hr1. simpl. lia.
  - intros i Hi. rewrite <- Hlen in Hi.
    destruct (lookup_lt_is_Some_2 qts i Hi) as [query Hq].
    destruct (Hall1 i query Hq) as (q & L1 & -> & HL1 & Hev1).
    destruct (Hall2 i _ Hq) as (q' & L2 & [= <-] & HL2 & Hev2).
    exists q, L1, L2. eexists _, _. split_and!; eauto.
    + rewrite Hr1 in HL2. unfold choice_at in HL2 |- *. simpl in HL2.
      by rewrite <- Hlen, Nat.add_assoc.
    + apply lookup_insert_eq.
    + apply lookup_insert_eq.
Qed.

Lemma calls_app (p : Event C → bool) evs1 evs2 :
  calls p (evs1 ++ evs2) = (calls p evs1 + calls p evs2)%nat.
Proof. unfold calls. by rewrite List.filter_app, length_app. Qed.

Lemma calls_all (p : Event C → bool) evs :
  Forall (λ ev, p ev = true) evs → calls p evs = length evs.
Proof.
  unfold calls. induction 1 as [|ev evs Hp _ IH]; simpl; [done|].
  rewrite Hp. simpl. by rewrite IH.
Qed.

Lemma calls_none (p : Event C → bool) evs :
  Forall (λ ev, p ev = false) evs → calls p evs = 0%nat.
Proof.
  unfold calls. induction 1 as [|ev evs Hp _ IH]; simpl; [done|].
  by rewrite Hp.
Qed.

Lemma generate_is_not (p : Event C → bool) evs :
  (∀ q kw, p (EvGenerate q kw) = false) →
  Forall (λ ev, is_generate ev = true) evs →
  Forall (λ ev, p ev = false) evs.
Proof.
  intros Hp Hall. eapply Forall_impl; [exact Hall|].
  intros [] Hev; first [done | apply Hp].
Qed.

Lemma iteration_call_counts chunk w w' :
  iteration C chunk w = (Ok tt, w') →
  ∃ evs, trace w' = trace w ++ evs ∧
    calls is_generate evs = (2 * length chunk)%nat ∧
    calls is_pipe evs = 2%nat ∧
    calls is_step evs = 1%nat ∧
    calls is_log evs = 1%nat ∧
    cursor (np_random w')
      = (cursor (np_random w) + 2 * length chunk)%nat.
Proof.
  intros H. apply iteration_calls in H
    as (gens1 & texts1 & gens2 & texts2 & ev_step & ev_log & Ht & Hl1 & Hl2
        & Hg1 & Hg2 & Hs & Hl & Hcur & _).
  eexists. split; [exact Ht|].
  destruct ev_step; try done. destruct ev_log; try done.
  rewrite !calls_app.
  rewrite !(calls_all is_generate gens1), !(calls_all is_generate gens2)
    by done.
  rewrite !(calls_none is_pipe gens1), !(calls_none is_pipe gens2),
    !(calls_none is_step gens1), !(calls_none is_step gens2),
    !(calls_none is_log gens1), !(calls_none is_log gens2)
    by (by apply generate_is_not).
  unfold calls; simpl. split_and!; try done. lia.
Qed.

End Calls.

(** X12: the calls of one successful iteration, in order: one
    generation per record of the batch, one scoring call, again one
    generation per record, a second scoring call, the update step, the
    logging call; both scoring calls carry [sent_kwargs]. *)
Theorem iteration_call_order (C : Collaborators) chunk (w w' : World C) :
  iteration C chunk w = (Ok tt, w') →
  ∃ gens1 texts1 gens2 texts2 ev_step ev_log,
    trace w' = trace w ++ gens1 ++ [EvPipe texts1 sent_kwargs]
      ++ gens2 ++ [EvPipe texts2 sent_kwargs] ++ [ev_step; ev_log] ∧
    length gens1 = length chunk ∧ length gens2 = length chunk ∧
    Forall (λ ev, is_generate ev = true) gens1 ∧
    Forall (λ ev, is_generate ev = true) gens2 ∧
    is_step ev_step = true ∧ is_log ev_log = true.
Proof.
  intros H. apply iteration_calls in H
    as (gens1 & texts1 & gens2 & texts2 & ev_step & ev_log & H).
  exists gens1, texts1, gens2, texts2, ev_step, ev_log.
  destruct H as (? & ? & ? & ? & ? & ? & ? & _). by split_and!.
Qed.

Lemma iteration_call_order_witness :
  ∃ w', iteration Toy.caps [Toy.record1] Toy.w0 = (Ok tt, w') ∧
  ∃ gens1 texts1 gens2 texts2 ev_step ev_log,
    trace w' = trace Toy.w0 ++ gens1 ++ [EvPipe texts1 sent_kwargs]
      ++ gens2 ++ [EvPipe texts2 sent_kwargs] ++ [ev_step; ev_log] ∧
    length gens1 = length [Toy.record1] ∧
    length gens2 = length [Toy.record1] ∧
    Forall (λ ev, is_generate ev = true) gens1 ∧
    Forall (λ ev, is_generate ev = true) gens2 ∧
    is_step ev_step = true ∧ is_log ev_log = true.
Proof.
  eexists. split; [vm_compute; reflexivity|].
  eapply (iteration_call_order Toy.caps [Toy.record1] Toy.w0).
  vm_compute; reflexivity.
Defined.

(** X13: the two passes of an iteration over [n] records draw their
    lengths one after the other from the same generator: the [i]-th
    generation of the first pass carries draw [i], the [i]-th generation
    of the second pass, for the same query, carries draw [n + i]; the
    iteration consumes [2 n] draws. *)
Theorem passes_use_successive_draws (C : Collaborators)
    chunk (w w' : World C) :
  iteration C chunk w = (Ok tt, w') →
  ∃ gens1 texts1 gens2 texts2 rest,
    trace w' = trace w ++ gens1 ++ [EvPipe texts1 sent_kwargs]
      ++ gens2 ++ [EvPipe texts2 sent_kwargs] ++ rest ∧
    cursor (np_random w')
      = (cursor (np_random w) + 2 * length chunk)%nat ∧
    ∀ i, (i < length chunk)%nat →
      ∃ q L1 L2 kw1 kw2,
        choice_at output_length_sampler (np_random w) i = Some L1 ∧
        choice_at output_length_sampler (np_random w) (length chunk + i)
          = Some L2 ∧
        gens1 !! i = Some (EvGenerate q kw1) ∧
        kw1 !! gen_key = Some (PInt L1) ∧
        gens2 !! i = Some (EvGenerate q kw2) ∧
        kw2 !! gen_key = Some (PInt L2).
Proof.
  intros H. apply iteration_calls in H
    as (gens1 & texts1 & gens2 & texts2 & ev_step & ev_log & Ht & _ & _ & _
        & _ & _ & _ & Hcur & Hall).
  by exists gens1, texts1, gens2, texts2, [ev_step; ev_log].
Qed.

Lemma passes_use_successive_draws_witness :
  ∃ w', iteration Toy.caps [Toy.record1; Toy.record2] Toy.w0 = (Ok tt, w') ∧
  ∃ gens1 texts1 gens2 texts2 rest,
    trace w' = trace Toy.w0 ++ gens1 ++ [EvPipe texts1 sent_kwargs]
      ++ gens2 ++ [EvPipe texts2 sent_kwargs] ++ rest ∧
    cursor (np_random w')
      = (cursor (np_random Toy.w0)
         + 2 * length [Toy.record1; Toy.record2])%nat ∧
    ∀ i, (i < length [Toy.record1; Toy.record2])%nat →
      ∃ q L1 L2 kw1 kw2,
        choice_at output_length_sampler (np_random Toy.w0) i = Some L1 ∧
        choice_at output_length_sampler (np_random Toy.w0)
          (length [Toy.record1; Toy.record2] + i) = Some L2 ∧
        gens1 !! i = Some (EvGenerate q kw1) ∧
        kw1 !! gen_key = Some (PInt L1) ∧
        gens2 !! i = Some (EvGenerate q kw2) ∧
        kw2 !! gen_key = Some (PInt L2).
Proof.
  eexists. split; [vm_compute; reflexivity|].
  eapply (passes_use_successive_draws Toy.caps [Toy.record1; Toy.record2]
            Toy.w0).
  vm_compute; reflexivity.
Defined.

(** X14: over a run of the loop that goes through, the trainer's
    generation is called twice per record, the scoring pipeline twice
    per batch, the update step and the logging call once per batch; two
    lengths are drawn per record. *)
Theorem training_loop_call_counts (C : Collaborators)
    (batches : list (list (gmap string pyval))) (w w' : World C) :
  training_loop C batches w = (Ok tt, w') →
  ∃ evs, trace w' = trace w ++ evs ∧
    calls is_generate evs = (2 * length (concat batches))%nat ∧
    calls is_pipe evs = (2 * length batches)%nat ∧
    calls is_step evs = length batches ∧
    calls is_log evs = length batches ∧
    cursor (np_random w')
      = (cursor (np_random w) + 2 * length (concat batches))%nat.
Proof.
  revert w. induction batches as [|chunk batches IH]; intros w H; simpl in H.
  - inversion H; subst. exists []. rewrite app_nil_r. simpl.
    split_and!; try done; lia.
  - apply bind_Ok_inv in H as ([] & w1 & Hit & H).
    apply iteration_call_counts in Hit
      as (evs1 & Ht1 & Hg1 & Hp1 & Hs1 & Hl1 & Hc1).
    apply IH in H as (evs2 & Ht2 & Hg2 & Hp2 & Hs2 & Hl2 & Hc2).
    exists (evs1 ++ evs2). rewrite !calls_app. simpl. rewrite length_app.
    split_and!; try lia.
    by rewrite Ht2, Ht1, <- app_assoc.
Qed.

Lemma training_loop_call_counts_witness :
  ∃ w', training_loop Toy.caps [[Toy.record1]; [Toy.record2]]
          Toy.w0 = (Ok tt, w') ∧
  ∃ evs, trace w' = trace Toy.w0 ++ evs ∧
    calls is_generate evs = 4%nat ∧
    calls is_pipe evs = 4%nat ∧
    calls is_step evs = 2%nat ∧
    calls is_log evs = 2%nat ∧
    cursor (np_random w') = (cursor (np_random Toy.w0) + 4)%nat.
Proof.
  eexists. split; [vm_compute; reflexivity|].
  eapply (training_loop_call_counts Toy.caps
            [[Toy.record1]; [Toy.record2]] Toy.w0).
  vm_compute; reflexivity.
Defined.

(** ** What the loop does to [generation_kwargs] *)

Lemma only_length_set_trans kw1 kw2 kw3 :
  only_length_set kw1 kw2 → only_length_set kw2 kw3 →
  only_length_set kw1 kw3.
Proof.
  intros [->|(L & HL & ->)] [->|(L' & HL' & ->)].
  - by left.
  - right. eauto.
  - right. eauto.
  - right. exists L'. by rewrite insert_insert_eq.
Qed.

Section KwargsFrame.
Context (C : Collaborators).

Implicit Types (w : World C).

Lemma bind_only_length_set {A B} (c : M C A) (k : A → M C B) w r w' :
  (∀ w r w', c w = (r, w') →
     only_length_set (generation_kwargs w) (generation_kwargs w')) →
  (∀ a w r w', k a w = (r, w') →
     only_length_set (generation_kwargs w) (generation_kwargs w')) →
  bind c k w = (r, w') →
  only_length_set (generation_kwargs w) (generation_kwargs w').
Proof.
  intros Hc Hk. unfold bind. destruct (c w) as [[a|e] w1] eqn:Hcw.
  - intros H. eapply only_length_set_trans; eauto.
  - intros [= <- <-]. eauto.
Qed.

Lemma generate_responses_only_length_set qts acc w r w' :
  generate_responses C qts acc w = (r, w') →
  only_length_set (generation_kwargs w) (generation_kwargs w').
Proof.
  revert acc w. induction qts as [|query qts IH]; intros acc w H; simpl in H.
  - inversion H; subst. by left.
  - unfold bind at 1 in H. unfold call_sampler at 1 in H.
    destruct (choice output_length_sampler (np_random w)) as [L|] eqn:Hc.
    + apply choice_range in Hc.
      unfold generation_kwargs_setitem at 1 in H. unfold bind at 1 in H.
      unfold bind at 1 in H.
      destruct (generate C query _) as [[out|e] w2] eqn:Hg;
        apply generate_frame in Hg as [_ Hk]; simpl in Hk.
      * apply IH in H. eapply only_length_set_trans; [|exact H].
        right. exists L. by rewrite Hk.
      * inversion H; subst. right. exists L. by rewrite Hk.
    + inversion H; subst. by left.
Qed.

Lemma get_rewards_only_length_set qts ref_model w r w' :
  get_rewards C qts ref_model w = (r, w') →
  only_length_set (generation_kwargs w) (generation_kwargs w').
Proof.
  unfold get_rewards. apply bind_only_length_set.
  { intros ? ? ?. apply generate_responses_only_length_set. }
  intros rts w1 r1 w1' H. left. revert H.
  unfold bind, batch_setitem, batch_getitem, lift, sentiment_pipe, ret.
  simpl. intros H. repeat case_match; by simplify_eq.
Qed.

Lemma loop_body_only_length_set w r w' :
  loop_body C w = (r, w') →
  only_length_set (generation_kwargs w) (generation_kwargs w').
Proof.
  unfold loop_body. apply bind_only_length_set.
  { intros w0 r0 w0'. unfold batch_getitem. intros [= _ <-]. by left. }
  intros qts w0 r0 w0'. apply bind_only_length_set.
  { intros ? ? ?. apply get_rewards_only_length_set. }
  intros [rts rws] w1 r1 w1'. apply bind_only_length_set.
  { intros ? ? ?. apply get_rewards_only_length_set. }
  intros [rts_ref rws_ref] w2 r2 w2'. apply bind_only_length_set.
  { intros w3 r3 w3' H. apply step_frame in H as [_ ->]. by left. }
  intros stats w3 r3 w3' H. apply log_stats_frame in H as [_ ->]. by left.
Qed.

Lemma iteration_only_length_set chunk w r w' :
  iteration C chunk w = (r, w') →
  only_length_set (generation_kwargs w) (generation_kwargs w').
Proof.
  unfold iteration. apply bind_only_length_set.
  { intros w0 r0 w0'. unfold lift. intros [= _ <-]. by left. }
  intros b w0 r0 w0'. apply bind_only_length_set.
  { intros w1 r1 w1'. intros [= _ <-]. by left. }
  intros _ ? ? ?. apply loop_body_only_length_set.
Qed.

End KwargsFrame.

(** X15: however the loop ends, with or without an exception,
    [generation_kwargs] is then what it was before the loop or differs
    from it in ["max_new_tokens"] alone, which holds a length of the
    output range; every other entry is as it was. *)
Theorem loop_sets_only_max_new_tokens (C : Collaborators)
    batches (w : World C) r w' :
  training_loop C batches w = (r, w') →
  only_length_set (generation_kwargs w) (generation_kwargs w') ∧
  ∀ key, key ≠ "max_new_tokens" →
    generation_kwargs w' !! key = generation_kwargs w !! key.
Proof.
  intros H.
  assert (Hset : only_length_set (generation_kwargs w) (generation_kwargs w')).
  { revert w r w' H. induction batches as [|chunk batches IH];
      intros w r w' H; simpl in H.
    - inversion H; subst. by left.
    - revert H. apply bind_only_length_set.
      + intros ? ? ?. apply iteration_only_length_set.
      + intros _ ? ? ?. apply IH. }
  split; [done|]. intros key Hkey.
  destruct Hset as [->|(L & _ & ->)]; [done|].
  by rewrite lookup_insert_ne.
Qed.

Lemma loop_sets_only_max_new_tokens_witness :
  ∃ w', training_loop Toy.caps_diverging [[Toy.record1]; [Toy.record2]]
          Toy.w0_diverging = (Err (RuntimeError "nan loss"), w') ∧
    only_length_set (generation_kwargs Toy.w0_diverging)
      (generation_kwargs w') ∧
    ∀ key, key ≠ "max_new_tokens" →
      generation_kwargs w' !! key
        = generation_kwargs Toy.w0_diverging !! key.
Proof.
  eexists. split; [vm_compute; reflexivity|].
  eapply (loop_sets_only_max_new_tokens Toy.caps_diverging
            [[Toy.record1]; [Toy.record2]] Toy.w0_diverging).
  vm_compute; reflexivity.
Defined.

(** ** Tokenising a row *)

Lemma slice_to_take {A} (n : Z) (l : list A) :
  0 ≤ n → slice_to n l = take (Z.to_nat n) l.
Proof.
  intros Hn. unfold slice_to.
  destruct (n <? 0) eqn:Hneg; [apply Z.ltb_lt in Hneg; lia|].
  destruct (Z.min_spec n (Z.of_nat (length l))) as [[Hlt ->]|[Hge ->]];
    [done|].
  rewrite Nat2Z.id, firstn_all. symmetry. apply take_ge. lia.
Qed.

(** X16: on a row with a review that the tokenizer encodes,
    [tokenize] returns: it draws one length [n] of the input range,
    stores the first [n] token ids of the review (all of them when
    there are fewer) under ["input_ids"] and their decoding under
    ["query"], and leaves every other field as it was. *)
Theorem tokenize_returns (tok : Tokenizer) lo hi sample r v ids :
  0 ≤ lo < hi →
  sample !! "review" = Some v →
  tok_encode tok v = Ok ids →
  ∃ n row,
    choice (LengthSampler_init lo hi) r = Some n ∧ lo ≤ n < hi ∧
    tokenize tok (LengthSampler_init lo hi) sample r = (Ok row, advance r) ∧
    row !! "input_ids" = Some (PTensor (take (Z.to_nat n) ids)) ∧
    row !! "query" = Some (PStr (tok_decode tok (take (Z.to_nat n) ids))) ∧
    (length (take (Z.to_nat n) ids)
       = Nat.min (Z.to_nat n) (length ids)) ∧
    take (Z.to_nat n) ids `prefix_of` ids ∧
    ∀ key, key ≠ "input_ids" → key ≠ "query" →
      row !! key = sample !! key.
Proof.
  intros Hrange Hrev Henc.
  destruct (choice_total lo hi r) as [n Hn]; [lia|].
  apply choice_range in Hn as Hr.
  exists n. eexists. split; [done|]. split; [done|].
  unfold tokenize, getitem. rewrite Hrev. simpl. rewrite Henc.
  unfold call_input_size. rewrite Hn. rewrite lookup_insert_eq. simpl.
  rewrite slice_to_take by lia.
  split_and!; try done.
  - by rewrite lookup_insert_ne, lookup_insert_eq.
  - apply lookup_insert_eq.
  - apply length_take.
  - apply prefix_take.
  - intros key H1 H2. by rewrite !lookup_insert_ne.
Qed.

Lemma tokenize_returns_witness :
  ∃ n row,
    choice (LengthSampler_init 2 8) Toy.rng = Some n ∧ 2 ≤ n < 8 ∧
    tokenize Reviews.tok (LengthSampler_init 2 8) Reviews.row2 Toy.rng
      = (Ok row, advance Toy.rng) ∧
    row !! "input_ids" = Some (PTensor (take (Z.to_nat n) [66; 97; 100])) ∧
    row !! "query"
      = Some (PStr (tok_decode Reviews.tok
                      (take (Z.to_nat n) [66; 97; 100]))) ∧
    (length (take (Z.to_nat n) [66; 97; 100])
       = Nat.min (Z.to_nat n) (length [66; 97; 100])) ∧
    take (Z.to_nat n) [66; 97; 100] `prefix_of` [66; 97; 100] ∧
    ∀ key, key ≠ "input_ids" → key ≠ "query" →
      row !! key = Reviews.row2 !! key.
Proof.
  apply (tokenize_returns Reviews.tok 2 8 Reviews.row2 Toy.rng (PStr "Bad")).
  - lia.
  - vm_compute; reflexivity.
  - vm_compute; reflexivity.
Defined.

(** X17: [tokenize] raises only for a row without ["review"]
    (KeyError) or when the tokenizer's [encode] raises; in both cases
    no length has been drawn. *)
Theorem tokenize_raises (tok : Tokenizer) lo hi sample r e r' :
  lo < hi →
  tokenize tok (LengthSampler_init lo hi) sample r = (Err e, r') →
  r' = r ∧
  ((sample !! "review" = None ∧ e = KeyError "review") ∨
   ∃ v, sample !! "review" = Some v ∧ tok_encode tok v = Err e).
Proof.
  intros Hrange. unfold tokenize, getitem.
  destruct (sample !! "review") as [v|] eqn:Hrev; simpl.
  - destruct (tok_encode tok v) as [ids|e'] eqn:Henc.
    + destruct (choice_total lo hi r) as [n Hn]; [lia|].
      unfold call_input_size. rewrite Hn. rewrite lookup_insert_eq. simpl.
      done.
    + intros [= <- <-]. split; [done|]. right. eauto.
  - intros [= <- <-]. split; [done|]. by left.
Qed.

Lemma tokenize_raises_witness :
  tokenize Reviews.tok (LengthSampler_init 2 8) Reviews.row_no_review Toy.rng
    = (Err (KeyError "review"), Toy.rng) ∧
  Toy.rng = Toy.rng ∧
  ((Reviews.row_no_review !! "review" = None
    ∧ KeyError "review" = KeyError "review") ∨
   ∃ v, Reviews.row_no_review !! "review" = Some v
        ∧ tok_encode Reviews.tok v = Err (KeyError "review")).
Proof.
  split; [vm_compute; reflexivity|].
  apply (tokenize_raises Reviews.tok 2 8 Reviews.row_no_review Toy.rng).
  - lia.
  - vm_compute; reflexivity.
Defined.

Lemma tokenized_fields (tok : Tokenizer) d :
  tokenized tok d →
  ∃ t, d !! "input_ids" = Some (PTensor t) ∧
       d !! "query" = Some (PStr (tok_decode tok t)) ∧
       (length t < 8)%nat.
Proof.
  intros (sample & r & r' & H). revert H. unfold tokenize, getitem.
  destruct (sample !! "review") as [v|]; simpl; [|done].
  destruct (tok_encode tok v) as [ids|]; [|done].
  unfold call_input_size.
  destruct (choice input_size r) as [n|] eqn:Hn; [|done].
  apply choice_range in Hn.
  unfold input_min_text_length, input_max_text_length in Hn.
  rewrite lookup_insert_eq. simpl. intros [= <- _].
  rewrite slice_to_take by lia.
  exists (take (Z.to_nat n) ids). split_and!.
  - by rewrite lookup_insert_ne, lookup_insert_eq.
  - apply lookup_insert_eq.
  - rewrite length_take. lia.
Qed.

(** X18: every row that [tokenize] returned, with the lengths of the
    script, carries at most seven token ids under ["input_ids"], and
    under ["query"] the text these ids decode to. *)
Theorem tokenized_row_fields (tok : Tokenizer) d :
  tokenized tok d →
  ∃ t, d !! "input_ids" = Some (PTensor t) ∧
       d !! "query" = Some (PStr (tok_decode tok t)) ∧
       (length t ≤ 7)%nat.
Proof.
  intros H. destruct (tokenized_fields tok d H) as (t & H1 & H2 & H3).
  exists t. split_and!; try done. lia.
Qed.

Lemma tokenized_row_fields_witness :
  ∃ t, Reviews.tokenized1 !! "input_ids" = Some (PTensor t) ∧
       Reviews.tokenized1 !! "query"
         = Some (PStr (tok_decode Reviews.tok t)) ∧
       (length t ≤ 7)%nat.
Proof.
  apply (tokenized_row_fields Reviews.tok).
  exists Reviews.row1, Toy.rng. eexists. vm_compute; reflexivity.
Defined.

(** X19: a batch of tokenized rows goes through an iteration: when the
    rows carry the fields of the first one (as the rows of one table
    do) and no collaborator raises, collating succeeds, the batch has
    its ["input_ids"] and ["query"] columns, and the body runs to the
    end without an exception. *)
Theorem tokenized_batch_completes (C : Collaborators) (tok : Tokenizer)
    chunk d0 (w : World C) :
  collaborators_succeed C →
  chunk !! 0%nat = Some d0 →
  (∀ d, d ∈ chunk → dom d0 ⊆ dom d) →
  Forall (tokenized tok) chunk →
  ∃ w', iteration C chunk w = (Ok tt, w').
Proof.
  intros Hsucceed H0 Hdom Htok.
  destruct (collator_columns chunk d0 H0 Hdom) as (b & Hc & _ & Hcols).
  assert (Hd0 : tokenized tok d0).
  { eapply Forall_lookup_1; eauto. }
  destruct (tokenized_fields tok d0 Hd0) as (t0 & Hin0 & Hq0 & _).
  destruct (Hcols "input_ids") as (qts & Hbin & Hlen1 & Hqts).
  { apply elem_of_dom. eauto. }
  destruct (Hcols "query") as (queries & Hbq & Hlen2 & Hqs).
  { apply elem_of_dom. eauto. }
  destruct (loop_body_total C Hsucceed (set_batch C b w) qts queries)
    as [w' Hbody]; try done.
  - apply Forall_lookup. intros i x Hi.
    apply lookup_lt_Some in Hi as Hlt. rewrite Hlen1 in Hlt.
    destruct (lookup_lt_is_Some_2 chunk i Hlt) as [d Hd].
    destruct (Hqts i d Hd) as (v & Hv & Hci).
    rewrite Hi in Hci. inversion Hci; subst v.
    destruct (tokenized_fields tok d) as (t & Ht & _).
    { eapply Forall_lookup_1; eauto. }
    rewrite Ht in Hv. inversion Hv. eauto.
  - apply Forall_lookup. intros i x Hi.
    apply lookup_lt_Some in Hi as Hlt. rewrite Hlen2 in Hlt.
    destruct (lookup_lt_is_Some_2 chunk i Hlt) as [d Hd].
    destruct (Hqs i d Hd) as (v & Hv & Hci).
    rewrite Hi in Hci. inversion Hci; subst v.
    destruct (tokenized_fields tok d) as (t & _ & Ht & _).
    { eapply Forall_lookup_1; eauto. }
    rewrite Ht in Hv. inversion Hv. eauto.
  - exists w'. unfold iteration, lift. unfold bind at 1. rewrite Hc.
    unfold bind at 1. exact Hbody.
Qed.

Lemma tokenized_batch_completes_witness :
  ∃ w', iteration Toy.caps [Reviews.tokenized1] Toy.w0 = (Ok tt, w').
Proof.
  apply (tokenized_batch_completes Toy.caps Reviews.tok
           [Reviews.tokenized1] Reviews.tokenized1 Toy.w0
           ToyFacts.caps_succeed).
  - reflexivity.
  - intros d Hd. by apply list_elem_of_singleton in Hd as ->.
  - repeat constructor. exists Reviews.row1, Toy.rng. eexists.
    vm_compute; reflexivity.
Defined.

(** ** Raises outside generation, scoring and the update *)

(** X20: when collating a batch raises (an empty batch, or a record
    without a field of the first one), the loop ends with that
    exception in the world the batches before left: [batch] is still
    the previous batch, and nothing was called for this one. *)
Theorem training_loop_collation_raises (C : Collaborators)
    pre chunk post (w w1 : World C) e :
  training_loop C pre w = (Ok tt, w1) →
  collator chunk = Err e →
  training_loop C (pre ++ chunk :: post) w = (Err e, w1).
Proof.
  intros Hpre Hc. rewrite (training_loop_app _ _ _ _ _ Hpre). simpl.
  apply bind_Err. unfold iteration, lift. unfold bind at 1. by rewrite Hc.
Qed.

Lemma training_loop_collation_raises_witness :
  ∃ w1, training_loop Toy.caps [[Toy.record1]] Toy.w0 = (Ok tt, w1) ∧
    training_loop Toy.caps
      ([[Toy.record1]] ++ [Toy.record2; Samples.record_no_ids]
         :: [[Toy.record2]]) Toy.w0
    = (Err (KeyError "input_ids"), w1).
Proof.
  eexists. split; [vm_compute; reflexivity|].
  apply (training_loop_collation_raises Toy.caps [[Toy.record1]]
           [Toy.record2; Samples.record_no_ids] [[Toy.record2]] Toy.w0).
  - vm_compute; reflexivity.
  - vm_compute; reflexivity.
Defined.

(** X21: when the logging call raises, the loop ends with that
    exception after the update step of the batch has been made: the
    last two calls are the step and the logging call, and the batches
    that follow are not touched. *)
Theorem training_loop_log_raises (C : Collaborators)
    pre chunk post (w w1 : World C) b qts rts rws w2 rts_ref rws_ref w3
    stats w4 e w5 :
  training_loop C pre w = (Ok tt, w1) →
  collator chunk = Ok b →
  b !! "input_ids" = Some qts →
  get_rewards C qts false (set_batch C b w1) = (Ok (rts, rws), w2) →
  get_rewards C qts true w2 = (Ok (rts_ref, rws_ref), w3) →
  step C qts rts rts_ref rws rws_ref w3 = (Ok stats, w4) →
  log_stats C stats rws w4 = (Err e, w5) →
  training_loop C (pre ++ chunk :: post) w = (Err e, w5) ∧
  trace w5 = trace w3
    ++ [EvStep qts rts rts_ref rws rws_ref; EvLog stats (batch w3) rws].
Proof.
  intros Hpre Hc Hin H1 H2 Hs Hl. split.
  - rewrite (training_loop_app _ _ _ _ _ Hpre). simpl. apply bind_Err.
    unfold iteration, lift. unfold bind at 1. rewrite Hc. unfold bind at 1.
    unfold loop_body. unfold batch_getitem at 1, getitem. unfold bind at 1.
    simpl. rewrite Hin.
    by rewrite (bind_Ok _ _ _ _ _ _ H1), (bind_Ok _ _ _ _ _ _ H2),
      (bind_Ok _ _ _ _ _ _ Hs).
  - apply step_Ok_inv in Hs as (_ & Hb & Ht).
    unfold log_stats in Hl. simpl in Hl.
    destruct (ppo_log_stats C _ _ _ _) as [r' t']. inversion Hl; subst.
    simpl. by rewrite Ht, Hb, <- app_assoc.
Qed.

Lemma training_loop_log_raises_witness :
  ∃ w5 w3 qts rts rts_ref rws rws_ref stats,
    training_loop Faults.caps_unlogged ([] ++ [Toy.record1] :: [[Toy.record2]])
      Faults.w0_unlogged = (Err (RuntimeError "tracker offline"), w5) ∧
    trace w5 = trace w3
      ++ [EvStep qts rts rts_ref rws rws_ref; EvLog stats (batch w3) rws].
Proof.
  eexists _, _, _, _, _, _, _, _.
  eapply (training_loop_log_raises Faults.caps_unlogged []
            [Toy.record1] [[Toy.record2]] Faults.w0_unlogged).
  - reflexivity.
  - vm_compute; reflexivity.
  - vm_compute; reflexivity.
  - vm_compute; reflexivity.
  - vm_compute; reflexivity.
  - vm_compute; reflexivity.
  - vm_compute; reflexivity.
Defined.
